(** * Tic Tac Toe With Agents: a shallow embedding of [tic-tac-toe.py]

    The development follows the layout of the Python module: the integer
    codes of the marks, [Coordinate], [Board], [Move], the four player
    agents, the two referees and the [Simulator].  Read-only helpers
    ([check_win], [board_histogram], [free_spots], [whose_turn]) are pure
    functions of the contents of a board; everything that draws random
    numbers, allocates a board or writes to one lives in the monad [M]
    over a store of board objects and a source of random draws. *)

From Stdlib Require Import ZArith Lia List Bool Sorted.
From Stdlib Require Ascii.
From stdpp Require Import base option list.
Import ListNotations.

Local Open Scope nat_scope.

(** ** Marks

    The module-level constants [X = 0], [O = 1], [EMPTY = 2] are used as an
    enumeration of cell contents and player identities.  ([REFEREE = 3] is
    only ever passed to [log], which prints in debug mode and is not
    modelled.)  From here on [O] is the mark, not the natural number. *)

Inductive mark : Type := X | O | EMPTY.

Definition mark_eqb (a b : mark) : bool :=
  match a, b with
  | X, X | O, O | EMPTY, EMPTY => true
  | _, _ => false
  end.

(** [X if p == O else O] *)
Definition other_player (p : mark) : mark :=
  if mark_eqb p O then X else O.

(** ** Coordinate and Move *)

Record Coordinate : Type := mkCoordinate { row : nat; col : nat }.

Record Move : Type := mkMove { coordinate : Coordinate; player : mark }.

Definition coord_eqb (a b : Coordinate) : bool :=
  Nat.eqb (row a) (row b) && Nat.eqb (col a) (col b).

(** ** The contents of a Board

    [Board.board] is a list of three rows of three cells.  A [Grid] is the
    value of that attribute; the [Board] objects themselves, which can be
    aliased and are written in place, are addresses into the store defined
    further down. *)

Abbreviation Grid := (list (list mark)).

(** [[[EMPTY for _ in range(3)] for _ in range(3)]] *)
Definition empty_grid : Grid := repeat (repeat EMPTY 3) 3.

(** [board[r][c]].  Python raises [IndexError] outside the grid; every
    read in the program uses indices from [range(3)] or a coordinate
    built from them on a 3x3 grid, so the default is never observed on
    the grids of [wf_grid]. *)
Definition getitem (g : Grid) (r c : nat) : mark :=
  match g !! r with
  | Some cells => match cells !! c with Some m => m | None => EMPTY end
  | None => EMPTY
  end.

(** [self.board[coordinate.row][coordinate.col] = player]; [None] is the
    [IndexError] of an index outside a row list or outside the grid. *)
Definition grid_place (g : Grid) (c : Coordinate) (p : mark) : option Grid :=
  match g !! row c with
  | Some cells =>
      if Nat.ltb (col c) (length cells)
      then Some (<[row c := <[col c := p]> cells]> g)
      else None
  | None => None
  end.

(** [Board.iter]: every cell, row by row. *)
Definition iter (g : Grid) : list mark := concat g.

Definition wf_row (cells : list mark) : bool := Nat.eqb (length cells) 3.

Definition wf_grid (g : Grid) : bool :=
  Nat.eqb (length g) 3 && forallb wf_row g.

Definition in_range (c : Coordinate) : bool :=
  Nat.ltb (row c) 3 && Nat.ltb (col c) 3.

(** ** Helpers repeated in every agent and referee class

    [board_histogram], [free_spots] and [check_win] appear with the same
    body in [RandomAgent], [OneStepAheadAgent], [MinimaxAgent],
    [RegularReferee] and [NoPenaltiesReferee]; one definition stands for
    all the copies. *)

(** [hist = {X: 0, O: 0, EMPTY: 0}], a total map on the three keys. *)
Definition Hist : Type := mark -> nat.

Definition hist_init : Hist := fun _ => 0.

(** [hist[pos] += 1] *)
Definition hist_incr (h : Hist) (pos : mark) : Hist :=
  fun k => if mark_eqb k pos then S (h k) else h k.

Definition board_histogram (g : Grid) : Hist :=
  fold_left hist_incr (iter g) hist_init.

Definition free_spots (g : Grid) : list Coordinate :=
  flat_map (fun r =>
    flat_map (fun c =>
      if mark_eqb (getitem g r c) EMPTY then [mkCoordinate r c] else [])
      (seq 0 3))
    (seq 0 3).

(** Python's chained comparison [a == b == c]. *)
Definition chain_eq (a b c : mark) : bool := mark_eqb a b && mark_eqb b c.

(** [for row in range(3): if board[row][0] == board[row][1] == board[row][2]:
    return board[row][0]]; [None] when the loop falls through. *)
Fixpoint check_rows (g : Grid) (rows : list nat) : option mark :=
  match rows with
  | [] => None
  | r :: rest =>
      if chain_eq (getitem g r 0) (getitem g r 1) (getitem g r 2)
      then Some (getitem g r 0)
      else check_rows g rest
  end.

Fixpoint check_cols (g : Grid) (cols : list nat) : option mark :=
  match cols with
  | [] => None
  | c :: rest =>
      if chain_eq (getitem g 0 c) (getitem g 1 c) (getitem g 2 c)
      then Some (getitem g 0 c)
      else check_cols g rest
  end.

Definition check_win (g : Grid) : mark :=
  match check_rows g (seq 0 3) with
  | Some m => m
  | None =>
      match check_cols g (seq 0 3) with
      | Some m => m
      | None =>
          if chain_eq (getitem g 0 0) (getitem g 1 1) (getitem g 2 2)
          then getitem g 0 0
          else if chain_eq (getitem g 0 2) (getitem g 1 1) (getitem g 2 0)
          then getitem g 0 2
          else EMPTY
      end
  end.

(** ** Referees *)

Inductive Judgement : Type :=
  X_WINS | O_WINS | DRAW | X_PENALTY | O_PENALTY.

(** [RegularReferee.whose_turn] *)
Definition whose_turn (g : Grid) : mark :=
  let hist := board_histogram g in
  if Nat.leb (hist X) (hist O) then X else O.

(** [all(pos is not EMPTY for pos in board.iter())] *)
Definition all_not_empty (g : Grid) : bool :=
  forallb (fun pos => negb (mark_eqb pos EMPTY)) (iter g).

Definition move_cell (g : Grid) (m : Move) : mark :=
  getitem g (row (coordinate m)) (col (coordinate m)).

(** [x_move is not None and cond(x_move)] *)
Definition submitted (mv : option Move) (cond : Move -> bool) : bool :=
  match mv with Some m => cond m | None => false end.

(** [x_move is None] *)
Definition is_none (mv : option Move) : bool :=
  match mv with Some _ => false | None => true end.

(** [RegularReferee.step]; falling off the end of the method returns
    [None]. *)
Definition RegularReferee_step (g : Grid) (x_move o_move : option Move)
  : option Judgement :=
  if submitted x_move (fun m => negb (mark_eqb (player m) X)) then Some X_PENALTY
  else if submitted o_move (fun m => negb (mark_eqb (player m) O)) then Some O_PENALTY
  else if submitted x_move (fun m => negb (mark_eqb (move_cell g m) EMPTY)) then Some X_PENALTY
  else if submitted o_move (fun m => negb (mark_eqb (move_cell g m) EMPTY)) then Some O_PENALTY
  else if submitted x_move (fun _ => mark_eqb (whose_turn g) O) then Some X_PENALTY
  else if submitted o_move (fun _ => mark_eqb (whose_turn g) X) then Some O_PENALTY
  else if mark_eqb (check_win g) X then Some X_WINS
  else if mark_eqb (check_win g) O then Some O_WINS
  else if all_not_empty g && mark_eqb (check_win g) EMPTY then Some DRAW
  else if is_none x_move && mark_eqb (whose_turn g) X then Some X_PENALTY
  else if is_none o_move && mark_eqb (whose_turn g) O then Some O_PENALTY
  else None.

(** [NoPenaltiesReferee.step] *)
Definition NoPenaltiesReferee_step (g : Grid) (x_move o_move : option Move)
  : option Judgement :=
  if mark_eqb (check_win g) X then Some X_WINS
  else if mark_eqb (check_win g) O then Some O_WINS
  else if all_not_empty g && mark_eqb (check_win g) EMPTY then Some DRAW
  else None.

Inductive Referee : Type := RegularReferee | NoPenaltiesReferee.

Definition Referee_step (r : Referee) : Grid -> option Move -> option Move -> option Judgement :=
  match r with
  | RegularReferee => RegularReferee_step
  | NoPenaltiesReferee => NoPenaltiesReferee_step
  end.

(** ** The store of Board objects and the random source

    A [Board] object is an address into [heap]; [Board()] and [copy]
    allocate, [place] overwrites in place, so two names for one address see
    each other's writes.  [rng] lists the draws the [random] module will
    hand out, the next one first.  A computation that yields [None] did
    not return normally: a Python exception ([IndexError] from an index
    outside a list or from [random.choice] on an empty list, [ValueError]
    from [max] of nothing) or a search cut off by its recursion budget. *)

Abbreviation Board := nat (only parsing).

Record State : Type := mkState { heap : list Grid; rng : nat -> nat }.

Definition M (A : Type) : Type := State -> option (A * State).

Definition M_ret {A} (a : A) : M A := fun s => Some (a, s).

Definition M_bind {A B} (k : A -> M B) (m : M A) : M B :=
  fun s => match m s with Some (a, s') => k a s' | None => None end.

#[export] Instance M_mret : MRet M := @M_ret.
#[export] Instance M_mbind : MBind M := @M_bind.

Definition raise {A} : M A := fun _ => None.

(** Reading the [board] attribute of the object at [b]. *)
Definition deref (b : Board) : M Grid :=
  fun s => match heap s !! b with Some g => Some (g, s) | None => None end.

(** [Board.__init__] *)
Definition Board_init : M Board :=
  fun s => Some (length (heap s), mkState (heap s ++ [empty_grid]) (rng s)).

(** [Board.place] *)
Definition Board_place (self : Board) (c : Coordinate) (p : mark) : M unit :=
  fun s =>
    match heap s !! self with
    | Some g =>
        match grid_place g c p with
        | Some g' => Some (tt, mkState (<[self := g']> (heap s)) (rng s))
        | None => None
        end
    | None => None
    end.

(** [for x in xs: body(x)] *)
Fixpoint for_each {A} (xs : list A) (body : A -> M unit) : M unit :=
  match xs with
  | [] => mret tt
  | x :: rest => body x ;; for_each rest body
  end.

(** A [for] loop whose body may [return]: [Some v] leaves the loop and
    the function with [v], [None] goes on to the next element. *)
Fixpoint for_return {A R} (xs : list A) (body : A -> M (option R)) : M (option R) :=
  match xs with
  | [] => mret None
  | x :: rest =>
      r ← body x;
      match r with
      | Some v => mret (Some v)
      | None => for_return rest body
      end
  end.

(** A [for] loop that updates a local variable. *)
Fixpoint for_fold {A S} (xs : list A) (body : S -> A -> M S) (acc : S) : M S :=
  match xs with
  | [] => mret acc
  | x :: rest => acc' ← body acc x; for_fold rest body acc'
  end.

(** [Board.copy] *)
Definition Board_copy (self : Board) : M Board :=
  new_board ← Board_init;
  for_each (seq 0 3) (fun r =>
    for_each (seq 0 3) (fun c =>
      g ← deref self;
      Board_place new_board (mkCoordinate r c) (getitem g r c))) ;;
  mret new_board.

(** [random.choice(xs)]: the next draw selects the element. *)
Definition choice {A} (xs : list A) : M A :=
  fun s =>
    match xs !! (rng s 0 mod length xs) with
    | Some x => Some (x, mkState (heap s) (fun n => rng s (S n)))
    | None => None
    end.

(** The helpers called on a Board object read it at the time of the call. *)
Definition read_histogram (b : Board) : M Hist := g ← deref b; mret (board_histogram g).
Definition read_free_spots (b : Board) : M (list Coordinate) := g ← deref b; mret (free_spots g).
Definition read_check_win (b : Board) : M mark := g ← deref b; mret (check_win g).

(** ** Agents *)

(** [NoRulesAgent.step] *)
Definition NoRulesAgent_step (self_player : mark) (board : Board) : M (option Move) :=
  turn ← choice [true; false];
  if negb turn then mret None
  else
    r ← choice [0; 1; 2];
    c ← choice [0; 1; 2];
    p ← choice [X; O];
    mret (Some (mkMove (mkCoordinate r c) p)).

(** The five early [return None] of the three rule-respecting agents, in
    the order of the source: won, lost, draw, X is next, O is next. *)
Definition declines (self_player : mark) (hist : Hist) (winner : mark) : bool :=
  if mark_eqb winner self_player then true
  else if negb (mark_eqb winner EMPTY) then true
  else if Nat.eqb (hist EMPTY) 0 then true
  else if Nat.leb (hist X) (hist O) && mark_eqb self_player O then true
  else if Nat.ltb (hist O) (hist X) && mark_eqb self_player X then true
  else false.

(** [RandomAgent.step] *)
Definition RandomAgent_step (self_player : mark) (board : Board) : M (option Move) :=
  hist ← read_histogram board;
  winner ← read_check_win board;
  if declines self_player hist winner then mret None
  else
    spots ← read_free_spots board;
    random_free_spot ← choice spots;
    mret (Some (mkMove random_free_spot self_player)).

(** One of the two lookahead loops of [OneStepAheadAgent.step]: place
    [who] on the copy, return a move of [self_player] there if that wins
    for [who], otherwise take the mark back. *)
Definition imagine_loop (self_player who : mark) (board : Board) : M (option Move) :=
  imagined_board ← Board_copy board;
  spots ← read_free_spots board;
  for_return spots (fun move =>
    Board_place imagined_board move who ;;
    w ← read_check_win imagined_board;
    if mark_eqb w who then mret (Some (mkMove move self_player))
    else Board_place imagined_board move EMPTY ;; mret None).

(** [OneStepAheadAgent.step] *)
Definition OneStepAheadAgent_step (self_player : mark) (board : Board) : M (option Move) :=
  hist ← read_histogram board;
  winner ← read_check_win board;
  if declines self_player hist winner then mret None
  else
    mine ← imagine_loop self_player self_player board;
    match mine with
    | Some m => mret (Some m)
    | None =>
        theirs ← imagine_loop self_player (other_player self_player) board;
        match theirs with
        | Some m => mret (Some m)
        | None =>
            spots ← read_free_spots board;
            random_free_spot ← choice spots;
            mret (Some (mkMove random_free_spot self_player))
        end
    end.

(** [max(values)] of a collection of integers; [None] is the
    [ValueError] on an empty one. *)
Definition max_list (l : list Z) : option Z :=
  match l with
  | [] => None
  | x :: rest => Some (fold_left Z.max rest x)
  end.

Definition max_of (l : list Z) : M Z :=
  match max_list l with
  | Some z => mret z
  | None => raise
  end.

(** The [values] dictionary of [position_values]: its keys are freshly
    built [Coordinate] objects, hashed by identity, so every assignment
    adds an entry; insertion order is kept. *)
Abbreviation Values := (list (Coordinate * Z)).

(** The body of the [for move in self.free_spots(board)] loop of
    [MinimaxAgent.position_values]; [search] is the recursive call.  The
    two [continue] branches leave the mark on [imagined_board]. *)
Definition position_values_body (search : Board -> mark -> M Values)
    (imagined_board : Board) (imagined_player : mark)
    (values : Values) (move : Coordinate) : M Values :=
  Board_place imagined_board move imagined_player ;;
  w ← read_check_win imagined_board;
  if mark_eqb w imagined_player then mret (values ++ [(move, 1%Z)])
  else
    left ← read_free_spots imagined_board;
    if Nat.eqb (length left) 0 then mret (values ++ [(move, 0%Z)])
    else
      theirs ← search imagined_board (other_player imagined_player);
      best ← max_of (map snd theirs);
      Board_place imagined_board move EMPTY ;;
      mret (values ++ [(move, (best * -1)%Z)]).

(** [MinimaxAgent.position_values].  [depth] bounds the nesting of the
    recursive calls; the interpreter would recurse as long as it takes. *)
Fixpoint position_values_rec (depth : nat) (board : Board) (imagined_player : mark)
  : M Values :=
  match depth with
  | 0 => raise
  | S depth' =>
      imagined_board ← Board_copy board;
      spots ← read_free_spots board;
      for_fold spots
        (position_values_body (position_values_rec depth') imagined_board imagined_player)
        []
  end.

(** Ten nested calls are enough on a board of nine cells
    (see [position_values_total]). *)
Definition position_values : Board -> mark -> M Values := position_values_rec 10.

(** [MinimaxAgent.step] *)
Definition MinimaxAgent_step (self_player : mark) (board : Board) : M (option Move) :=
  hist ← read_histogram board;
  winner ← read_check_win board;
  if declines self_player hist winner then mret None
  else
    values ← position_values board self_player;
    highest_value ← max_of (map snd values);
    let highest_value_positions :=
      map fst (List.filter (fun kv => Z.eqb (snd kv) highest_value) values) in
    random_highest_value_position ← choice highest_value_positions;
    mret (Some (mkMove random_highest_value_position self_player)).

Inductive Agent : Type :=
| NoRulesAgent (self_player : mark)
| RandomAgent (self_player : mark)
| OneStepAheadAgent (self_player : mark)
| MinimaxAgent (self_player : mark).

(** [agent.step(board)], dispatched on the class of the agent. *)
Definition Agent_step (a : Agent) : Board -> M (option Move) :=
  match a with
  | NoRulesAgent p => NoRulesAgent_step p
  | RandomAgent p => RandomAgent_step p
  | OneStepAheadAgent p => OneStepAheadAgent_step p
  | MinimaxAgent p => MinimaxAgent_step p
  end.

(** ** Simulator *)

Record Simulator : Type := mkSimulator {
  agent_x : Agent;          (* [players[0]] *)
  agent_o : Agent;          (* [players[1]] *)
  referee : Referee;
  board : Board
}.

(** [Simulator.__init__] *)
Definition Simulator_init (ax ao : Agent) (r : Referee) : M Simulator :=
  b ← Board_init;
  mret (mkSimulator ax ao r b).

(** [if move is not None: self.board.place(move.coordinate, move.player)] *)
Definition place_proposed (b : Board) (move : option Move) : M unit :=
  match move with
  | Some m => Board_place b (coordinate m) (player m)
  | None => mret tt
  end.

(** [Simulator.step]: the referee reads the board before any move of the
    step is applied. *)
Definition Simulator_step (self : Simulator) : M (option Judgement) :=
  x_move ← Agent_step (agent_x self) (board self);
  o_move ← Agent_step (agent_o self) (board self);
  g ← deref (board self);
  match Referee_step (referee self) g x_move o_move with
  | Some judgement => mret (Some judgement)
  | None =>
      for_each [x_move; o_move] (place_proposed (board self)) ;;
      mret None
  end.

(** [Simulator.run]: [steps] bounds the iterations of [while True]. *)
Fixpoint Simulator_run (steps : nat) (self : Simulator) : M Judgement :=
  match steps with
  | 0 => raise
  | S steps' =>
      judgement ← Simulator_step self;
      match judgement with
      | Some j => mret j
      | None => Simulator_run steps' self
      end
  end.

(** * Specification-side definitions *)

(** ** The win checker as the specification words it

    The eight lines in scan order: three rows, three columns, the two
    diagonals. *)
Definition lines : list (list Coordinate) :=
  map (fun r => map (mkCoordinate r) (seq 0 3)) (seq 0 3) ++
  map (fun c => map (fun r => mkCoordinate r c) (seq 0 3)) (seq 0 3) ++
  [ [mkCoordinate 0 0; mkCoordinate 1 1; mkCoordinate 2 2];
    [mkCoordinate 0 2; mkCoordinate 1 1; mkCoordinate 2 0] ].

Definition cell (g : Grid) (c : Coordinate) : mark := getitem g (row c) (col c).

(** All three cells of [line] carry the non-empty mark [m]. *)
Definition completed (g : Grid) (m : mark) (line : list Coordinate) : bool :=
  negb (mark_eqb m EMPTY) && forallb (fun c => mark_eqb (cell g c) m) line.

(** "returns the mark occupying any complete line where all three cells
    share a non-empty mark, scanned in a fixed order, returning the first
    match found; returns Empty if no line is complete." *)
Fixpoint first_completed (g : Grid) (ls : list (list Coordinate)) : mark :=
  match ls with
  | [] => EMPTY
  | l :: rest =>
      if completed g X l then X
      else if completed g O l then O
      else first_completed g rest
  end.

Definition winner (g : Grid) : mark := first_completed g lines.

(** Three Empty cells in a line. *)
Definition empty_line (g : Grid) (line : list Coordinate) : bool :=
  forallb (fun c => mark_eqb (cell g c) EMPTY) line.

(** "isFull(board) returns true iff no cell is Empty" *)
Definition isFull (g : Grid) : bool := Nat.eqb (length (free_spots g)) 0.

(** ** The reference minimax recurrence

    [reference_value depth g mover] is the score, for [mover], of the
    position [g] that [mover] has just produced: +1 if it is a win for
    [mover], 0 if the board is full without a winner, otherwise the
    negation of the best score the opponent can get by a placement of
    theirs on [g]. *)
Fixpoint reference_value (depth : nat) (g : Grid) (mover : mark) : option Z :=
  match depth with
  | 0 => None
  | S depth' =>
      if mark_eqb (winner g) mover then Some 1%Z
      else if isFull g then Some 0%Z
      else
        replies ← mapM (fun c =>
                     g' ← grid_place g c (other_player mover);
                     reference_value depth' g' (other_player mover))
                   (free_spots g);
        best ← max_list replies;
        Some (- best)%Z
  end.

(** The value the recurrence gives each free cell of [g] when [mover]
    fills it. *)
Definition reference_values (g : Grid) (mover : mark) : option Values :=
  mapM (fun c =>
          g' ← grid_place g c mover;
          v ← reference_value 10 g' mover;
          Some (c, v))
       (free_spots g).

(** ** The six checks of the strict referee, in the order of section 4.3

    Each check is a condition with the Outcome it produces; inside checks
    (1) to (3) and (6) the offender named is X when X offends, otherwise O. *)
Definition wrong_mark_x (xm : option Move) : bool :=
  submitted xm (fun m => negb (mark_eqb (player m) X)).
Definition wrong_mark_o (om : option Move) : bool :=
  submitted om (fun m => negb (mark_eqb (player m) O)).
Definition occupied (g : Grid) (mv : option Move) : bool :=
  submitted mv (fun m => negb (mark_eqb (move_cell g m) EMPTY)).
Definition out_of_turn_x (g : Grid) (xm : option Move) : bool :=
  submitted xm (fun _ => mark_eqb (whose_turn g) O).
Definition out_of_turn_o (g : Grid) (om : option Move) : bool :=
  submitted om (fun _ => mark_eqb (whose_turn g) X).
Definition skipped_x (g : Grid) (xm : option Move) : bool :=
  is_none xm && mark_eqb (whose_turn g) X.
Definition skipped_o (g : Grid) (om : option Move) : bool :=
  is_none om && mark_eqb (whose_turn g) O.

Definition penalty_for (x_offends : bool) : Judgement :=
  if x_offends then X_PENALTY else O_PENALTY.

Definition strict_checks (g : Grid) (xm om : option Move) : list (bool * Judgement) :=
  [ (wrong_mark_x xm || wrong_mark_o om, penalty_for (wrong_mark_x xm));
    (occupied g xm || occupied g om, penalty_for (occupied g xm));
    (out_of_turn_x g xm || out_of_turn_o g om, penalty_for (out_of_turn_x g xm));
    (mark_eqb (check_win g) X || mark_eqb (check_win g) O,
       if mark_eqb (check_win g) X then X_WINS else O_WINS);
    (all_not_empty g && mark_eqb (check_win g) EMPTY, DRAW);
    (skipped_x g xm || skipped_o g om, penalty_for (skipped_x g xm)) ].

(** "the first matching condition produces the Outcome and no further
    checks run; if no condition matches, returns none" *)
Fixpoint first_match (checks : list (bool * Judgement)) : option Judgement :=
  match checks with
  | [] => None
  | (cond, outcome) :: rest => if cond then Some outcome else first_match rest
  end.

(** A submitted move that is illegal: checks (1) to (3). *)
Definition illegal_move (g : Grid) (xm om : option Move) : bool :=
  (wrong_mark_x xm || wrong_mark_o om)
  || (occupied g xm || occupied g om)
  || (out_of_turn_x g xm || out_of_turn_o g om).

Definition is_penalty (j : Judgement) : bool :=
  match j with X_PENALTY | O_PENALTY => true | _ => false end.

(** ** The four pre-move checks of section 4.2 *)
Definition pre_move_decline (self_player : mark) (g : Grid) : bool :=
  mark_eqb (check_win g) self_player
  || mark_eqb (check_win g) (other_player self_player)
  || isFull g
  || negb (mark_eqb (whose_turn g) self_player).

Definition rule_respecting (a : Agent) : bool :=
  match a with NoRulesAgent _ => false | _ => true end.

Definition agent_mark (a : Agent) : mark :=
  match a with
  | NoRulesAgent p | RandomAgent p | OneStepAheadAgent p | MinimaxAgent p => p
  end.

(** ** Alternating legal play

    [play g p]: the grid [g] arises from the empty board by placements on
    Empty cells, X first and then in turn, and [p] is the player to move. *)
Inductive play : Grid -> mark -> Prop :=
| play_start : play empty_grid X
| play_move g p c g' :
    play g p -> in_range c = true -> cell g c = EMPTY ->
    grid_place g c p = Some g' ->
    play g' (other_player p).

(** ** Applying the proposed moves *)

(** [if move is not None: self.board.place(move.coordinate, move.player)] *)
Definition apply_move (g : Grid) (mv : option Move) : option Grid :=
  match mv with
  | Some m => grid_place g (coordinate m) (player m)
  | None => Some g
  end.

(** * Proof-side definitions *)

(** ** A functional reading of [position_values]

    The same loop with the contents of [imagined_board] passed along
    instead of being kept in the store; [position_values_fun_ok] relates
    the two. *)
Definition pv_body (search : Grid -> option Values) (p : mark)
    (st : Grid * Values) (move : Coordinate) : option (Grid * Values) :=
  ig1 ← grid_place (fst st) move p;
  if mark_eqb (check_win ig1) p then Some (ig1, snd st ++ [(move, 1%Z)])
  else if Nat.eqb (length (free_spots ig1)) 0 then Some (ig1, snd st ++ [(move, 0%Z)])
  else
    theirs ← search ig1;
    best ← max_list (map snd theirs);
    ig2 ← grid_place ig1 move EMPTY;
    Some (ig2, snd st ++ [(move, (best * -1)%Z)]).

Fixpoint pv_loop (search : Grid -> option Values) (p : mark)
    (moves : list Coordinate) (st : Grid * Values) : option (Grid * Values) :=
  match moves with
  | [] => Some st
  | move :: rest => st' ← pv_body search p st move; pv_loop search p rest st'
  end.

Fixpoint pv (depth : nat) (g : Grid) (p : mark) : option Values :=
  match depth with
  | 0 => None
  | S depth' =>
      snd <$> pv_loop (fun ig => pv depth' ig (other_player p)) p (free_spots g) (g, [])
  end.

(** The cells [MinimaxAgent.step] draws from. *)
Definition highest_value_positions (values : Values) : option (list Coordinate) :=
  highest_value ← max_list (map snd values);
  Some (map fst (List.filter (fun kv => Z.eqb (snd kv) highest_value) values)).

(** What a minimax agent can return on [g], over all draws. *)
Definition minimax_options (p : mark) (g : Grid) : option (list (option Move)) :=
  if declines p (board_histogram g) (check_win g) then Some [None]
  else
    values ← pv 10 g p;
    cells ← highest_value_positions values;
    Some (map (fun c => Some (mkMove c p)) cells).

Definition is_draw (j : Judgement) : bool :=
  match j with DRAW => true | _ => false end.

(** Every game of at most [steps] steps between two minimax agents under
    the strict referee, whatever they draw, ends in [DRAW]. *)
Fixpoint all_draw (steps : nat) (g : Grid) : bool :=
  match steps with
  | 0 => false
  | S steps' =>
      match minimax_options X g, minimax_options O g with
      | Some xs, Some os =>
          forallb (fun xm =>
            forallb (fun om =>
              match RegularReferee_step g xm om with
              | Some j => is_draw j
              | None =>
                  match apply_move g xm ≫= (fun g1 => apply_move g1 om) with
                  | Some g' => all_draw steps' g'
                  | None => false
                  end
              end) os) xs
      | _, _ => false
      end
  end.

(** ** Enumerations for proofs by exhaustive evaluation *)
Definition all_marks : list mark := [X; O; EMPTY].

Definition all_rows : list (list mark) :=
  flat_map (fun a => flat_map (fun b => map (fun c => [a; b; c]) all_marks) all_marks)
    all_marks.

Definition all_grids : list Grid :=
  flat_map (fun r0 => flat_map (fun r1 => map (fun r2 => [r0; r1; r2]) all_rows) all_rows)
    all_rows.

Definition all_coords : list Coordinate :=
  flat_map (fun r => map (mkCoordinate r) (seq 0 3)) (seq 0 3).

(** Boards agree on everything that was already allocated. *)
Definition preserves (s s' : State) : Prop :=
  forall b g, heap s !! b = Some g -> heap s' !! b = Some g.

Definition preserves_but (ib : Board) (s s' : State) : Prop :=
  forall b g, b <> ib -> heap s !! b = Some g -> heap s' !! b = Some g.

(** The store after one draw from the random source. *)
Definition advance (s : State) : State :=
  mkState (heap s) (fun n => rng s (S n)).

(** The store after [self.board[...] = ...] on the board at [b]. *)
Definition store_set (s : State) (b : Board) (g : Grid) : State :=
  mkState (<[b := g]> (heap s)) (rng s).

(** What an agent may hand to the referee on a board with contents [g]. *)
Definition proposes (a : Agent) (g : Grid) (mv : option Move) : Prop :=
  match a with
  | NoRulesAgent _ =>
      match mv with
      | None => True
      | Some m => in_range (coordinate m) = true /\ (player m = X \/ player m = O)
      end
  | RandomAgent p | OneStepAheadAgent p =>
      if declines p (board_histogram g) (check_win g) then mv = None
      else exists c, In c (free_spots g) /\ mv = Some (mkMove c p)
  | MinimaxAgent p =>
      exists opts, minimax_options p g = Some opts /\ In mv opts
  end.

(** Folding a partial update of a grid over a list. *)
Fixpoint fold_opt {A} (f : A -> Grid -> option Grid) (xs : list A) (g : Grid) : option Grid :=
  match xs with
  | [] => Some g
  | x :: rest => match f x g with Some g' => fold_opt f rest g' | None => None end
  end.

(** ** Particular boards *)

(** X has completed the middle row while the top row is still empty;
    O is to move. *)
Definition missed_win_grid : Grid :=
  [[EMPTY; EMPTY; EMPTY]; [X; X; X]; [O; O; EMPTY]].

Definition middle_row : list Coordinate :=
  [mkCoordinate 1 0; mkCoordinate 1 1; mkCoordinate 1 2].

(** X to move with three free cells, the first of which wins. *)
Definition unreverted_grid : Grid :=
  [[X; X; EMPTY]; [O; O; EMPTY]; [X; O; EMPTY]].

(** A store holding one board, with the random draws [rs]. *)
Definition one_board (g : Grid) (rs : nat -> nat) : State := mkState [g] rs.

(** Two lawless agents under the permissive referee, and two random
    agents under the strict one, on the board at address 0. *)
Definition lawless_sim : Simulator :=
  mkSimulator (NoRulesAgent X) (NoRulesAgent O) NoPenaltiesReferee 0.

Definition random_sim : Simulator :=
  mkSimulator (RandomAgent X) (RandomAgent O) RegularReferee 0.

(** [Simulator(agent_x, agent_o, referee).run()], stopped after [steps]
    iterations of the loop. *)
Definition game (steps : nat) (ax ao : Agent) (r : Referee) : M Judgement :=
  sim ← Simulator_init ax ao r;
  Simulator_run steps sim.

(** * Further definitions *)

(** ** A functional reading of the agents and of the simulator

    The same decisions as functions of the contents of the board and of
    the random draws still to come; [Agent_step_fun_ok] and
    [Simulator_run_fun_ok] relate them to the store versions. *)

(** The draws left after one has been used. *)
Definition shift (rs : nat -> nat) : nat -> nat := fun n => rs (S n).

Definition choice_fun {A} (xs : list A) (rs : nat -> nat) : option (A * (nat -> nat)) :=
  x ← xs !! (rs 0 mod length xs);
  Some (x, shift rs).

(** A mark of [who] on [move] makes [check_win] report [who]. *)
Definition wins_at (who : mark) (g : Grid) (move : Coordinate) : bool :=
  match grid_place g move who with
  | Some g1 => mark_eqb (check_win g1) who
  | None => false
  end.

(** The first free spot, in the order of [free_spots], where [who] would
    win at once. *)
Definition first_winning (who : mark) (g : Grid) : option Coordinate :=
  find (wins_at who g) (free_spots g).

Definition NoRulesAgent_fun (rs : nat -> nat) : option (option Move * (nat -> nat)) :=
  '(turn, rs1) ← choice_fun [true; false] rs;
  if negb turn then Some (None, rs1)
  else
    '(r, rs2) ← choice_fun [0; 1; 2] rs1;
    '(c, rs3) ← choice_fun [0; 1; 2] rs2;
    '(p, rs4) ← choice_fun [X; O] rs3;
    Some (Some (mkMove (mkCoordinate r c) p), rs4).

Definition random_move (p : mark) (cells : list Coordinate) (rs : nat -> nat)
  : option (option Move * (nat -> nat)) :=
  '(c, rs') ← choice_fun cells rs;
  Some (Some (mkMove c p), rs').

Definition agent_fun (a : Agent) (g : Grid) (rs : nat -> nat)
  : option (option Move * (nat -> nat)) :=
  match a with
  | NoRulesAgent _ => NoRulesAgent_fun rs
  | RandomAgent p =>
      if declines p (board_histogram g) (check_win g) then Some (None, rs)
      else random_move p (free_spots g) rs
  | OneStepAheadAgent p =>
      if declines p (board_histogram g) (check_win g) then Some (None, rs)
      else
        match first_winning p g with
        | Some c => Some (Some (mkMove c p), rs)
        | None =>
            match first_winning (other_player p) g with
            | Some c => Some (Some (mkMove c p), rs)
            | None => random_move p (free_spots g) rs
            end
        end
  | MinimaxAgent p =>
      if declines p (board_histogram g) (check_win g) then Some (None, rs)
      else
        values ← pv 10 g p;
        cells ← highest_value_positions values;
        random_move p cells rs
  end.

(** One step: the Outcome if any, the contents of the board after the
    step, the draws left. *)
Definition sim_step_fun (ax ao : Agent) (r : Referee) (g : Grid) (rs : nat -> nat)
  : option (option Judgement * Grid * (nat -> nat)) :=
  '(xm, rs1) ← agent_fun ax g rs;
  '(om, rs2) ← agent_fun ao g rs1;
  match Referee_step r g xm om with
  | Some j => Some (Some j, g, rs2)
  | None =>
      g1 ← apply_move g xm;
      g2 ← apply_move g1 om;
      Some (None, g2, rs2)
  end.

Fixpoint sim_run_fun (steps : nat) (ax ao : Agent) (r : Referee) (g : Grid)
    (rs : nat -> nat) : option (Judgement * Grid * (nat -> nat)) :=
  match steps with
  | 0 => None
  | S steps' =>
      '(j, g', rs') ← sim_step_fun ax ao r g rs;
      match j with
      | Some j => Some (j, g', rs')
      | None => sim_run_fun steps' ax ao r g' rs'
      end
  end.

(** The Outcome of a whole game as a function of the draws. *)
Definition game_fun (steps : nat) (ax ao : Agent) (r : Referee) (rs : nat -> nat)
  : option Judgement :=
  (fun res => fst (fst res)) <$> sim_run_fun steps ax ao r empty_grid rs.

(** What a rule-respecting agent with mark [p] may hand to the referee on
    [g]: nothing if it declines, otherwise its mark on a free spot. *)
Definition fair_options (p : mark) (g : Grid) : list (option Move) :=
  if declines p (board_histogram g) (check_win g) then [None]
  else map (fun c => Some (mkMove c p)) (free_spots g).

Definition option_Judgement_eqb (a b : option Judgement) : bool :=
  match a, b with
  | None, None => true
  | Some X_WINS, Some X_WINS | Some O_WINS, Some O_WINS | Some DRAW, Some DRAW
  | Some X_PENALTY, Some X_PENALTY | Some O_PENALTY, Some O_PENALTY => true
  | _, _ => false
  end.

(** Draws that make the minimax agent X pass up a win and lose to a
    random agent O: six times the first candidate, then the second. *)
Definition losing_draws : nat -> nat := fun n => n / 6.

(** O to move; O wins at (1,2), and X would win at (0,2). *)
Definition unreverted_grid_o : Grid :=
  [[X; X; EMPTY]; [O; O; EMPTY]; [X; EMPTY; EMPTY]].

(** ** The value of a position under optimal play

    The game the agents and referees actually play: a placement wins when
    [check_win] then reports the placer, a full board without that is a
    draw.  [placement_value search g p c] is the score for [p] of placing
    on the free cell [c] of [g], given the opponent's best score [search]
    on the resulting board; [best_value depth g p] is the best score [p]
    can get by a placement on [g]. *)
Definition placement_value (search : Grid -> option Z) (g : Grid) (p : mark)
    (c : Coordinate) : option Z :=
  g1 ← grid_place g c p;
  if mark_eqb (check_win g1) p then Some 1%Z
  else if Nat.eqb (length (free_spots g1)) 0 then Some 0%Z
  else v ← search g1; Some (v * -1)%Z.

Fixpoint placement_values (search : Grid -> option Z) (g : Grid) (p : mark)
    (moves : list Coordinate) : option (list Z) :=
  match moves with
  | [] => Some []
  | c :: rest =>
      v ← placement_value search g p c;
      vs ← placement_values search g p rest;
      Some (v :: vs)
  end.

Fixpoint best_value (depth : nat) (g : Grid) (p : mark) : option Z :=
  match depth with
  | 0 => None
  | S depth' =>
      vs ← placement_values (fun g1 => best_value depth' g1 (other_player p)) g p
             (free_spots g);
      max_list vs
  end.

(** A score of the search: -1, 0 or 1. *)
Definition score (v : Z) : Prop := (-1 <= v <= 1)%Z.

(** The scores of the search against the true placement values: either
    they coincide, or a winning placement was met and both lists hold
    a 1. *)
Definition agree (g : Grid) (p : mark) (a b : list Z) : Prop :=
  a = b \/ (In 1%Z a /\ In 1%Z b /\ first_winning p g <> None).

(** ** The campaign of [main] *)

(** The values of the [Judgement] enumeration. *)
Definition Judgement_value (j : Judgement) : nat :=
  match j with
  | X_WINS => 0 | O_WINS => 1 | DRAW => 2 | X_PENALTY => 3 | O_PENALTY => 4
  end.

Definition Judgement_eqb (a b : Judgement) : bool :=
  Nat.eqb (Judgement_value a) (Judgement_value b).

(** The dictionary [judgement_counts]: its items in insertion order. *)
Abbreviation Counts := (list (Judgement * nat)).

(** [d.get(k, default)] *)
Fixpoint counts_get (d : Counts) (k : Judgement) (default : nat) : nat :=
  match d with
  | [] => default
  | (k', v) :: rest => if Judgement_eqb k' k then v else counts_get rest k default
  end.

(** [d[k]]; [None] is the [KeyError]. *)
Fixpoint counts_item (d : Counts) (k : Judgement) : option nat :=
  match d with
  | [] => None
  | (k', v) :: rest => if Judgement_eqb k' k then Some v else counts_item rest k
  end.

(** [d[k] = v]: an existing key keeps its place, a new one goes last. *)
Fixpoint counts_set (d : Counts) (k : Judgement) (v : nat) : Counts :=
  match d with
  | [] => [(k, v)]
  | (k', v') :: rest =>
      if Judgement_eqb k' k then (k', v) :: rest else (k', v') :: counts_set rest k v
  end.

(** [sorted(keys, key=lambda x: x.value)], a stable sort. *)
Fixpoint insert_by_value (k : Judgement) (ks : list Judgement) : list Judgement :=
  match ks with
  | [] => [k]
  | k' :: rest =>
      if Nat.ltb (Judgement_value k) (Judgement_value k') then k :: k' :: rest
      else k' :: insert_by_value k rest
  end.

Definition sorted_by_value (ks : list Judgement) : list Judgement :=
  fold_left (fun acc k => insert_by_value k acc) ks [].

(** The first loop of [main], [trials] games of [OneStepAheadAgent(X)]
    against [RandomAgent(O)] under [RegularReferee]; each [sim.run()] is
    given the ten steps that always suffice (see [strict_run_terminates]). *)
Fixpoint campaign (trials : nat) (judgement_counts : Counts) : M Counts :=
  match trials with
  | 0 => mret judgement_counts
  | S trials' =>
      sim ← Simulator_init (OneStepAheadAgent X) (RandomAgent O) RegularReferee;
      judgement ← Simulator_run 10 sim;
      campaign trials'
        (counts_set judgement_counts judgement (counts_get judgement_counts judgement 0 + 1))
  end.

(** [main]: the result is the list of the lines printed, as pairs of a
    Judgement and its count. *)
Definition main : M (list (Judgement * nat)) :=
  judgement_counts ← campaign 10 [];
  for_fold (sorted_by_value (map fst judgement_counts))
    (fun lines key =>
       match counts_item judgement_counts key with
       | Some n => mret (lines ++ [(key, n)])
       | None => raise
       end)
    [].

(** No key twice, counts of at least one adding up to [n], no penalty. *)
Definition tally (n : nat) (d : Counts) : Prop :=
  List.NoDup (map fst d)
  /\ list_sum (map snd d) = n
  /\ Forall (fun kn => is_penalty (fst kn) = false /\ 1 <= snd kn) d.

(** ** Rendering

    [Board.pretty_print]: the characters written to standard output, one
    per cell ("X", "O", and "-" for anything else) and a newline after
    each row. *)
Definition cell_char (m : mark) : Ascii.ascii :=
  match m with
  | X => Ascii.ascii_of_nat 88
  | O => Ascii.ascii_of_nat 79
  | EMPTY => Ascii.ascii_of_nat 45
  end.

Definition newline : Ascii.ascii := Ascii.ascii_of_nat 10.

Definition pretty_print (g : Grid) : list Ascii.ascii :=
  flat_map (fun cells => map cell_char cells ++ [newline]) g.

(** * Lemmas *)

(** ** Marks and coordinates *)

Lemma mark_eqb_spec (a b : mark) : reflect (a = b) (mark_eqb a b).
Proof. destruct a, b; constructor; congruence. Qed.

Lemma mark_eqb_eq (a b : mark) : mark_eqb a b = true <-> a = b.
Proof. destruct a, b; simpl; split; congruence. Qed.

Lemma mark_eqb_neq (a b : mark) : mark_eqb a b = false <-> a <> b.
Proof. destruct a, b; simpl; split; congruence. Qed.

Lemma mark_eqb_refl (a : mark) : mark_eqb a a = true.
Proof. now destruct a. Qed.

Lemma all_marks_complete (m : mark) : In m all_marks.
Proof. destruct m; simpl; auto. Qed.

Lemma in_range_inv (c : Coordinate) :
  in_range c = true -> In c all_coords.
Proof.
  destruct c as [[|[|[|r]]] [|[|[|k]]]]; simpl; intros H;
    try discriminate H; auto 10.
Qed.

Lemma all_coords_in_range (c : Coordinate) :
  In c all_coords -> in_range c = true.
Proof.
  simpl. intros H. repeat (destruct H as [<- | H]; [reflexivity |]). destruct H.
Qed.

(** ** Well-formed grids *)

Lemma wf_row_inv (cells : list mark) :
  wf_row cells = true -> exists a b c, cells = [a; b; c].
Proof.
  destruct cells as [|a [|b [|c [|d rest]]]]; try discriminate. eauto.
Qed.

Lemma wf_grid_inv (g : Grid) :
  wf_grid g = true ->
  exists a b c d e f h i j, g = [[a; b; c]; [d; e; f]; [h; i; j]].
Proof.
  unfold wf_grid. intros H. apply andb_prop in H as [Hlen Hrows].
  destruct g as [|r0 [|r1 [|r2 [|r3 rest]]]]; try discriminate Hlen.
  simpl in Hrows.
  apply andb_prop in Hrows as [H0 Hrows].
  apply andb_prop in Hrows as [H1 Hrows].
  apply andb_prop in Hrows as [H2 _].
  apply wf_row_inv in H0 as (a & b & c & ->).
  apply wf_row_inv in H1 as (d & e & f & ->).
  apply wf_row_inv in H2 as (h & i & j & ->).
  repeat eexists.
Qed.

Lemma all_rows_complete (a b c : mark) : In [a; b; c] all_rows.
Proof.
  unfold all_rows. apply in_flat_map. exists a. split; [apply all_marks_complete|].
  apply in_flat_map. exists b. split; [apply all_marks_complete|].
  apply in_map_iff. exists c. split; [reflexivity | apply all_marks_complete].
Qed.

Lemma all_grids_complete (g : Grid) : wf_grid g = true -> In g all_grids.
Proof.
  intros H. apply wf_grid_inv in H as (a & b & c & d & e & f & h & i & j & ->).
  unfold all_grids. apply in_flat_map. exists [a; b; c]. split; [apply all_rows_complete|].
  apply in_flat_map. exists [d; e; f]. split; [apply all_rows_complete|].
  apply in_map_iff. exists [h; i; j]. split; [reflexivity | apply all_rows_complete].
Qed.

(** A boolean property checked on each of the 19683 grids holds of every
    well-formed grid. *)
Lemma forall_grids (P : Grid -> bool) :
  forallb P all_grids = true -> forall g, wf_grid g = true -> P g = true.
Proof.
  intros H g Hg. rewrite forallb_forall in H. apply H, all_grids_complete, Hg.
Qed.

Lemma forall_coords (P : Coordinate -> bool) :
  forallb P all_coords = true -> forall c, in_range c = true -> P c = true.
Proof.
  intros H c Hc. rewrite forallb_forall in H. apply H, in_range_inv, Hc.
Qed.

Lemma empty_grid_wf : wf_grid empty_grid = true.
Proof. reflexivity. Qed.

Ltac grid_cells g H :=
  let a := fresh "a" in let b := fresh "b" in let c := fresh "c" in
  let d := fresh "d" in let e := fresh "e" in let f := fresh "f" in
  let h := fresh "h" in let i := fresh "i" in let j := fresh "j" in
  apply wf_grid_inv in H as (a & b & c & d & e & f & h & i & j & ->).

Ltac coord_cases c H :=
  let r := fresh "r" in let k := fresh "k" in
  destruct c as [[|[|[|r]]] [|[|[|k]]]]; try discriminate H.

(** ** Placing a mark *)

Lemma grid_place_wf (g : Grid) (c : Coordinate) (p : mark) :
  wf_grid g = true -> in_range c = true ->
  exists g', grid_place g c p = Some g' /\ wf_grid g' = true.
Proof.
  intros Hg Hc. grid_cells g Hg. coord_cases c Hc; eexists; split; reflexivity.
Qed.

Lemma grid_place_wf_inv (g g' : Grid) (c : Coordinate) (p : mark) :
  wf_grid g = true -> grid_place g c p = Some g' ->
  wf_grid g' = true /\ in_range c = true.
Proof.
  intros Hg. grid_cells g Hg.
  destruct c as [[|[|[|r]]] [|[|[|k]]]]; cbn; intros H; inversion H; split; reflexivity.
Qed.

Lemma grid_place_cell (g g' : Grid) (c c' : Coordinate) (p : mark) :
  wf_grid g = true -> grid_place g c p = Some g' ->
  cell g' c' = if coord_eqb c' c then p else cell g c'.
Proof.
  intros Hg. grid_cells g Hg.
  destruct c as [[|[|[|r]]] [|[|[|k]]]]; cbn; intros H; inversion H; subst g'; clear H;
    destruct c' as [[|[|[|r']]] [|[|[|k']]]]; reflexivity.
Qed.

(** Taking back a mark placed on an Empty cell restores the grid. *)
Lemma grid_place_undo (g g1 : Grid) (c : Coordinate) (p : mark) :
  wf_grid g = true -> cell g c = EMPTY -> grid_place g c p = Some g1 ->
  grid_place g1 c EMPTY = Some g.
Proof.
  intros Hg. grid_cells g Hg.
  destruct c as [[|[|[|r]]] [|[|[|k]]]]; cbn; intros Hc H; inversion H; subst; reflexivity.
Qed.

(** ** Free spots *)

Lemma free_spots_filter (g : Grid) :
  free_spots g = List.filter (fun c => mark_eqb (cell g c) EMPTY) all_coords.
Proof.
  unfold free_spots, all_coords, cell. cbn -[getitem mark_eqb].
  repeat (destruct (mark_eqb _ EMPTY)); reflexivity.
Qed.

Lemma free_spots_In (g : Grid) (c : Coordinate) :
  In c (free_spots g) <-> in_range c = true /\ cell g c = EMPTY.
Proof.
  rewrite free_spots_filter, filter_In, mark_eqb_eq. split.
  - intros [H1 H2]. split; [apply all_coords_in_range, H1 | exact H2].
  - intros [H1 H2]. split; [apply in_range_inv, H1 | exact H2].
Qed.

Lemma all_coords_NoDup : List.NoDup all_coords.
Proof.
  cbn. repeat (constructor; [cbn; intuition discriminate |]). constructor.
Qed.

Lemma free_spots_NoDup (g : Grid) : List.NoDup (free_spots g).
Proof. rewrite free_spots_filter. apply List.NoDup_filter, all_coords_NoDup. Qed.

Lemma forall_grid_coord_mark (P : Grid -> Coordinate -> mark -> bool) :
  forallb (fun g => forallb (fun c => forallb (P g c) all_marks) all_coords) all_grids = true ->
  forall g c p, wf_grid g = true -> in_range c = true -> P g c p = true.
Proof.
  intros H g c p Hg Hc.
  pose proof (forall_grids _ H g Hg) as H1. cbv beta in H1.
  pose proof (forall_coords _ H1 c Hc) as H2. cbv beta in H2.
  rewrite forallb_forall in H2. apply H2, all_marks_complete.
Qed.

(** A placement on an Empty cell uses up exactly one free spot. *)
Lemma free_spots_place (g g' : Grid) (c : Coordinate) (p : mark) :
  wf_grid g = true -> cell g c = EMPTY -> p <> EMPTY ->
  grid_place g c p = Some g' ->
  S (length (free_spots g')) = length (free_spots g).
Proof.
  intros Hg Hc Hp Hpl.
  destruct (grid_place_wf_inv _ _ _ _ Hg Hpl) as [_ Hr].
  pose proof (forall_grid_coord_mark
    (fun g c p =>
       implb (mark_eqb (cell g c) EMPTY && negb (mark_eqb p EMPTY))
         match grid_place g c p with
         | Some g' => Nat.eqb (S (length (free_spots g'))) (length (free_spots g))
         | None => true
         end)) as H.
  specialize (H ltac:(vm_compute; reflexivity) g c p Hg Hr). cbv beta in H.
  rewrite Hpl, Hc in H. apply mark_eqb_neq in Hp. rewrite Hp in H. simpl in H.
  apply Nat.eqb_eq, H.
Qed.

(** ** Histogram *)

Lemma histogram_empty_count (g : Grid) :
  wf_grid g = true -> board_histogram g EMPTY = length (free_spots g).
Proof.
  intros Hg. apply Nat.eqb_eq.
  apply (forall_grids (fun g => Nat.eqb (board_histogram g EMPTY) (length (free_spots g))));
    [vm_compute; reflexivity | exact Hg].
Qed.

Lemma all_not_empty_isFull (g : Grid) :
  wf_grid g = true -> all_not_empty g = isFull g.
Proof.
  intros Hg. apply eqb_prop.
  apply (forall_grids (fun g => eqb (all_not_empty g) (isFull g)));
    [vm_compute; reflexivity | exact Hg].
Qed.

(** A placement of X or O on an Empty cell adds one to that mark's count
    and leaves the other's alone. *)
Lemma histogram_place (g g' : Grid) (c : Coordinate) (p : mark) :
  wf_grid g = true -> cell g c = EMPTY -> p <> EMPTY ->
  grid_place g c p = Some g' ->
  board_histogram g' p = S (board_histogram g p) /\
  board_histogram g' (other_player p) = board_histogram g (other_player p).
Proof.
  intros Hg Hc Hp Hpl.
  destruct (grid_place_wf_inv _ _ _ _ Hg Hpl) as [_ Hr].
  pose proof (forall_grid_coord_mark
    (fun g c p =>
       implb (mark_eqb (cell g c) EMPTY && negb (mark_eqb p EMPTY))
         match grid_place g c p with
         | Some g' =>
             Nat.eqb (board_histogram g' p) (S (board_histogram g p)) &&
             Nat.eqb (board_histogram g' (other_player p)) (board_histogram g (other_player p))
         | None => true
         end)) as H.
  specialize (H ltac:(vm_compute; reflexivity) g c p Hg Hr). cbv beta in H.
  rewrite Hpl, Hc in H. apply mark_eqb_neq in Hp. rewrite Hp in H. simpl in H.
  apply andb_prop in H as [H1 H2]. split; apply Nat.eqb_eq; assumption.
Qed.

(** ** Running computations in the store *)

Lemma bind_run {A B} (m : M A) (k : A -> M B) (s : State) :
  (m ≫= k) s = match m s with Some (a, s') => k a s' | None => None end.
Proof. reflexivity. Qed.

Lemma ret_run {A} (a : A) (s : State) : (mret a : M A) s = Some (a, s).
Proof. reflexivity. Qed.

Lemma deref_run (b : Board) (g : Grid) (s : State) :
  heap s !! b = Some g -> deref b s = Some (g, s).
Proof. unfold deref. now intros ->. Qed.

Lemma read_histogram_run (b : Board) (g : Grid) (s : State) :
  heap s !! b = Some g -> read_histogram b s = Some (board_histogram g, s).
Proof. intros H. unfold read_histogram. now rewrite bind_run, (deref_run _ _ _ H). Qed.

Lemma read_free_spots_run (b : Board) (g : Grid) (s : State) :
  heap s !! b = Some g -> read_free_spots b s = Some (free_spots g, s).
Proof. intros H. unfold read_free_spots. now rewrite bind_run, (deref_run _ _ _ H). Qed.

Lemma read_check_win_run (b : Board) (g : Grid) (s : State) :
  heap s !! b = Some g -> read_check_win b s = Some (check_win g, s).
Proof. intros H. unfold read_check_win. now rewrite bind_run, (deref_run _ _ _ H). Qed.

Lemma Board_place_run (b : Board) (g g' : Grid) (c : Coordinate) (p : mark) (s : State) :
  heap s !! b = Some g -> grid_place g c p = Some g' ->
  Board_place b c p s = Some (tt, store_set s b g').
Proof. unfold Board_place. now intros -> ->. Qed.

Lemma store_set_lookup (s : State) (b : Board) (g0 g : Grid) :
  heap s !! b = Some g0 -> heap (store_set s b g) !! b = Some g.
Proof.
  intros H. simpl. apply list_lookup_insert_eq. eapply lookup_lt_Some, H.
Qed.

Lemma store_set_preserves_but (s : State) (b : Board) (g : Grid) :
  preserves_but b s (store_set s b g).
Proof. intros b' g' Hne H. simpl. now rewrite list_lookup_insert_ne. Qed.

Lemma preserves_refl (s : State) : preserves s s.
Proof. now intros b g. Qed.

Lemma preserves_trans (s1 s2 s3 : State) :
  preserves s1 s2 -> preserves s2 s3 -> preserves s1 s3.
Proof. intros H1 H2 b g H. apply H2, H1, H. Qed.

Lemma preserves_but_refl (ib : Board) (s : State) : preserves_but ib s s.
Proof. now intros b g. Qed.

Lemma preserves_but_trans (ib : Board) (s1 s2 s3 : State) :
  preserves_but ib s1 s2 -> preserves_but ib s2 s3 -> preserves_but ib s1 s3.
Proof. intros H1 H2 b g Hne H. apply H2, H1, H; assumption. Qed.

Lemma preserves_weaken (ib : Board) (s s' : State) :
  preserves s s' -> preserves_but ib s s'.
Proof. intros H b g _. apply H. Qed.

(** *** [Board.copy] *)

Lemma for_each_run {A} (inj : Grid -> State) (f : A -> Grid -> option Grid)
    (body : A -> M unit) :
  (forall x g, body x (inj g) =
     match f x g with Some g' => Some (tt, inj g') | None => None end) ->
  forall xs g, for_each xs body (inj g) =
     match fold_opt f xs g with Some g' => Some (tt, inj g') | None => None end.
Proof.
  intros Hbody xs. induction xs as [|x rest IH]; intros g; simpl.
  - reflexivity.
  - rewrite bind_run, Hbody. destruct (f x g) as [g'|]; [apply IH | reflexivity].
Qed.

Lemma Board_copy_run (b : Board) (g : Grid) (s : State) :
  heap s !! b = Some g -> wf_grid g = true ->
  Board_copy b s = Some (length (heap s), mkState (heap s ++ [g]) (rng s)).
Proof.
  intros Hb Hg. unfold Board_copy. rewrite bind_run. unfold Board_init at 1.
  set (n := length (heap s)).
  set (inj := fun ng : Grid => mkState (heap s ++ [ng]) (rng s)).
  change (mkState (heap s ++ [empty_grid]) (rng s)) with (inj empty_grid).
  rewrite bind_run.
  rewrite (for_each_run inj
    (fun r => fold_opt (fun c ng => grid_place ng (mkCoordinate r c) (getitem g r c)) (seq 0 3))).
  - grid_cells g Hg. reflexivity.
  - intros r ng.
    apply (for_each_run inj (fun c ng => grid_place ng (mkCoordinate r c) (getitem g r c))).
    intros c ng'. rewrite bind_run.
    rewrite (deref_run b g).
    2:{ unfold inj. simpl. rewrite lookup_app_l; [exact Hb | eapply lookup_lt_Some, Hb]. }
    unfold Board_place, inj. simpl.
    assert (Hn : (heap s ++ [ng']) !! n = Some ng')
      by (apply list_lookup_middle; reflexivity).

    rewrite Hn.
    destruct (grid_place ng' _ _) as [ng''|]; [|reflexivity].
    rewrite (insert_app_r_alt (heap s) [ng'] n) by (unfold n; lia).
    replace (n - length (heap s)) with 0 by (unfold n; lia). reflexivity.
Qed.

(** ** The minimax search: store version against functional reading *)

Lemma coord_eqb_eq (a b : Coordinate) : coord_eqb a b = true <-> a = b.
Proof.
  destruct a as [r1 c1], b as [r2 c2]. unfold coord_eqb. simpl.
  rewrite andb_true_iff, !Nat.eqb_eq. split.
  - now intros [-> ->].
  - intros H. inversion H. auto.
Qed.

Lemma coord_eqb_neq (a b : Coordinate) : a <> b -> coord_eqb a b = false.
Proof.
  intros H. destruct (coord_eqb a b) eqn:E; [|reflexivity].
  apply coord_eqb_eq in E. contradiction.
Qed.

Section Refinement.

Variable search_m : Board -> mark -> M Values.
Variable search_f : Grid -> option Values.
Variable p : mark.
Variable ib : Board.

Hypothesis search_ok :
  forall ig s vs,
    heap s !! ib = Some ig -> wf_grid ig = true -> search_f ig = Some vs ->
    exists s', search_m ib (other_player p) s = Some (vs, s')
               /\ preserves s s' /\ rng s' = rng s.

Lemma pv_body_refines (ig : Grid) (values : Values) (move : Coordinate)
      (s : State) (st' : Grid * Values) :
  heap s !! ib = Some ig -> wf_grid ig = true ->
  pv_body search_f p (ig, values) move = Some st' ->
  exists s', position_values_body search_m ib p values move s = Some (snd st', s')
             /\ preserves_but ib s s' /\ rng s' = rng s
             /\ heap s' !! ib = Some (fst st') /\ wf_grid (fst st') = true.
Proof.
  intros Hib Hwf. unfold pv_body, position_values_body. simpl fst; simpl snd.
  destruct (grid_place ig move p) as [ig1|] eqn:E1; [|discriminate]. simpl.
  destruct (grid_place_wf_inv _ _ _ _ Hwf E1) as [Hwf1 Hr].
  rewrite bind_run, (Board_place_run _ _ _ _ _ _ Hib E1).
  pose proof (store_set_lookup s ib ig ig1 Hib) as Hib1.
  rewrite bind_run, (read_check_win_run _ _ _ Hib1).
  destruct (mark_eqb (check_win ig1) p).
  { intros [= <-]. eexists. split; [reflexivity|]. simpl.
    repeat split; auto using store_set_preserves_but. }
  rewrite bind_run, (read_free_spots_run _ _ _ Hib1).
  destruct (Nat.eqb (length (free_spots ig1)) 0).
  { intros [= <-]. eexists. split; [reflexivity|]. simpl.
    repeat split; auto using store_set_preserves_but. }
  destruct (search_f ig1) as [theirs|] eqn:E2; [|discriminate]. simpl.
  destruct (search_ok _ _ _ Hib1 Hwf1 E2) as (s2 & Hrun & Hpres & Hrng).
  rewrite bind_run, Hrun. unfold max_of.
  destruct (max_list (map snd theirs)) as [best|]; [|discriminate]. simpl.
  destruct (grid_place ig1 move EMPTY) as [ig2|] eqn:E3; [|discriminate]. simpl.
  destruct (grid_place_wf_inv _ _ _ _ Hwf1 E3) as [Hwf2 _].
  intros [= <-]. rewrite bind_run, ret_run.
  pose proof (Hpres _ _ Hib1) as Hib2.
  rewrite bind_run, (Board_place_run _ _ _ _ _ _ Hib2 E3).
  eexists. split; [reflexivity|]. simpl. repeat split.
  - eapply preserves_but_trans; [apply store_set_preserves_but|].
    eapply preserves_but_trans; [apply preserves_weaken, Hpres|].
    apply store_set_preserves_but.
  - rewrite Hrng. reflexivity.
  - apply (store_set_lookup s2 ib ig1 ig2 Hib2).
  - exact Hwf2.
Qed.

Lemma pv_loop_refines (moves : list Coordinate) :
  forall (ig : Grid) (values : Values) (s : State) (st' : Grid * Values),
  heap s !! ib = Some ig -> wf_grid ig = true ->
  pv_loop search_f p moves (ig, values) = Some st' ->
  exists s', for_fold moves (position_values_body search_m ib p) values s
               = Some (snd st', s')
             /\ preserves_but ib s s' /\ rng s' = rng s.
Proof.
  induction moves as [|move rest IH]; intros ig values s st' Hib Hwf; simpl.
  - intros [= <-]. exists s. repeat split; auto using preserves_but_refl.
  - destruct (pv_body search_f p (ig, values) move) as [[ig' values']|] eqn:E;
      [|discriminate]. simpl. intros Hloop.
    destruct (pv_body_refines _ _ _ _ _ Hib Hwf E) as (s1 & Hrun & Hp1 & Hr1 & Hib1 & Hwf1).
    destruct (IH _ _ _ _ Hib1 Hwf1 Hloop) as (s2 & Hrun2 & Hp2 & Hr2).
    exists s2. rewrite bind_run, Hrun. simpl. split; [exact Hrun2|]. split.
    + eapply preserves_but_trans; eassumption.
    + congruence.
Qed.

End Refinement.

(** [position_values], run on a board whose contents are [g], returns what
    the functional reading computes from [g], draws nothing and leaves
    every board that existed before the call as it was. *)
Lemma position_values_fun_ok (depth : nat) :
  forall (b : Board) (g : Grid) (p : mark) (s : State) (vs : Values),
  heap s !! b = Some g -> wf_grid g = true -> pv depth g p = Some vs ->
  exists s', position_values_rec depth b p s = Some (vs, s')
             /\ preserves s s' /\ rng s' = rng s.
Proof.
  induction depth as [|d IH]; intros b g p s vs Hb Hwf; simpl; [discriminate|].
  destruct (pv_loop _ p (free_spots g) (g, [])) as [st'|] eqn:E; [|discriminate].
  simpl. intros [= <-].
  rewrite bind_run, (Board_copy_run _ _ _ Hb Hwf).
  set (ib := length (heap s)). set (s1 := mkState (heap s ++ [g]) (rng s)).
  assert (Hb1 : heap s1 !! b = Some g).
  { simpl. rewrite lookup_app_l; [exact Hb | eapply lookup_lt_Some, Hb]. }
  assert (Hib : heap s1 !! ib = Some g).
  { simpl. apply list_lookup_middle. reflexivity. }
  rewrite bind_run, (read_free_spots_run _ _ _ Hb1).
  destruct (pv_loop_refines (position_values_rec d) (fun ig => pv d ig (other_player p)) p ib)
    with (moves := free_spots g) (ig := g) (values := @nil (Coordinate * Z)) (s := s1) (st' := st')
    as (s2 & Hrun & Hpres & Hrng); auto.
  { intros ig s0 vs0 H1 H2 H3. apply (IH ib ig (other_player p) s0 vs0 H1 H2 H3). }
  exists s2. split; [exact Hrun|]. split; [|exact Hrng].
  intros b' g' Hb'. apply Hpres.
  - apply lookup_lt_Some in Hb'. unfold ib. lia.
  - simpl. rewrite lookup_app_l; [exact Hb' | eapply lookup_lt_Some, Hb'].
Qed.

(** ** The search returns *)

Lemma max_list_is_Some (l : list Z) : l <> [] -> exists z, max_list l = Some z.
Proof. destruct l; [congruence | simpl; eauto]. Qed.

Lemma free_spots_bound (g : Grid) : length (free_spots g) <= 9.
Proof.
  rewrite free_spots_filter.
  change 9 with (length all_coords). apply List.filter_length_le.
Qed.

Lemma other_player_not_empty (p : mark) : other_player p <> EMPTY.
Proof. destruct p; discriminate. Qed.

Section Totality.

Variable search_f : Grid -> option Values.
Variable p : mark.
Variable d : nat.

Hypothesis p_mark : p <> EMPTY.

Hypothesis search_total :
  forall ig, wf_grid ig = true -> length (free_spots ig) < d ->
    exists vs, search_f ig = Some vs /\ map fst vs = free_spots ig.

Lemma pv_loop_total (moves : list Coordinate) :
  forall (ig : Grid) (values : Values),
  wf_grid ig = true -> List.NoDup moves ->
  (forall m, In m moves -> in_range m = true /\ cell ig m = EMPTY) ->
  length (free_spots ig) <= d ->
  exists st', pv_loop search_f p moves (ig, values) = Some st'
              /\ map fst (snd st') = map fst values ++ moves.
Proof.
  induction moves as [|move rest IH]; intros ig values Hwf Hnd Hempty Hlen; simpl.
  - eexists. split; [reflexivity|]. simpl. now rewrite app_nil_r.
  - inversion Hnd as [|? ? Hnotin Hnd']; subst.
    destruct (Hempty move (or_introl eq_refl)) as [Hr Hmove].
    destruct (grid_place_wf ig move p Hwf Hr) as (ig1 & E1 & Hwf1).
    pose proof (free_spots_place _ _ _ _ Hwf Hmove p_mark E1) as Hcount.
    assert (Hrest1 : forall m, In m rest -> in_range m = true /\ cell ig1 m = EMPTY).
    { intros m Hm. destruct (Hempty m (or_intror Hm)) as [Hrm Hcm]. split; [exact Hrm|].
      rewrite (grid_place_cell _ _ _ m _ Hwf E1), coord_eqb_neq; [exact Hcm|].
      intros ->. contradiction. }
    assert (Hrest : forall m, In m rest -> in_range m = true /\ cell ig m = EMPTY).
    { intros m Hm. apply Hempty. now right. }
    unfold pv_body at 1. simpl fst; simpl snd. rewrite E1. simpl.
    destruct (mark_eqb (check_win ig1) p).
    { destruct (IH ig1 (values ++ [(move, 1%Z)]) Hwf1 Hnd' Hrest1 ltac:(lia))
        as (st' & Hrun & Hkeys).
      exists st'. split; [exact Hrun|].
      rewrite Hkeys, map_app. simpl. now rewrite <- app_assoc. }
    destruct (Nat.eqb (length (free_spots ig1)) 0) eqn:Efull.
    { destruct (IH ig1 (values ++ [(move, 0%Z)]) Hwf1 Hnd' Hrest1 ltac:(lia))
        as (st' & Hrun & Hkeys).
      exists st'. split; [exact Hrun|].
      rewrite Hkeys, map_app. simpl. now rewrite <- app_assoc. }
    destruct (search_total ig1 Hwf1 ltac:(lia)) as (theirs & Hsearch & Hkeys1).
    rewrite Hsearch. simpl.
    destruct (max_list_is_Some (map snd theirs)) as (best & Hbest).
    { apply Nat.eqb_neq in Efull. intros Hnil. apply Efull.
      rewrite <- Hkeys1, length_map, <- (length_map snd), Hnil. reflexivity. }
    rewrite Hbest. simpl.
    rewrite (grid_place_undo _ _ _ _ Hwf Hmove E1). simpl.
    destruct (IH ig (values ++ [(move, (best * -1)%Z)]) Hwf Hnd' Hrest Hlen)
      as (st' & Hrun & Hkeys).
    exists st'. split; [exact Hrun|].
    rewrite Hkeys, map_app. simpl. now rewrite <- app_assoc.
Qed.

End Totality.

(** With more nested calls allowed than there are free cells, the search
    returns a value for each free cell, in the order of [free_spots]. *)
Lemma pv_total (depth : nat) :
  forall (g : Grid) (p : mark),
  wf_grid g = true -> p <> EMPTY -> length (free_spots g) < depth ->
  exists vs, pv depth g p = Some vs /\ map fst vs = free_spots g.
Proof.
  induction depth as [|d IH]; intros g p Hwf Hp Hlen; [lia|]. simpl.
  destruct (pv_loop_total (fun ig => pv d ig (other_player p)) p d Hp) 
    with (moves := free_spots g) (ig := g) (values := @nil (Coordinate * Z))
    as (st' & Hrun & Hkeys).
  - intros ig Hwfi Hleni. apply IH; auto using other_player_not_empty.
  - exact Hwf.
  - apply free_spots_NoDup.
  - intros m Hm. now apply free_spots_In.
  - lia.
  - rewrite Hrun. simpl. eauto.
Qed.

Lemma position_values_total (b : Board) (g : Grid) (p : mark) (s : State) :
  heap s !! b = Some g -> wf_grid g = true -> p <> EMPTY ->
  exists vs s', position_values b p s = Some (vs, s')
                /\ pv 10 g p = Some vs /\ map fst vs = free_spots g
                /\ preserves s s' /\ rng s' = rng s.
Proof.
  intros Hb Hwf Hp.
  destruct (pv_total 10 g p Hwf Hp) as (vs & Hpv & Hkeys).
  { pose proof (free_spots_bound g). lia. }
  destruct (position_values_fun_ok 10 b g p s vs Hb Hwf Hpv) as (s' & Hrun & Hpres & Hrng).
  exists vs, s'. auto.
Qed.

(** ** What each agent returns *)

Lemma choice_run {A} (xs : list A) (s : State) :
  xs <> [] -> exists x, In x xs /\ choice xs s = Some (x, advance s).
Proof.
  intros Hne. unfold choice.
  assert (Hlt : rng s 0 mod length xs < length xs).
  { apply Nat.mod_upper_bound. destruct xs; [congruence | simpl; lia]. }
  destruct (lookup_lt_is_Some_2 xs _ Hlt) as [x Hx].
  exists x. rewrite Hx. split; [|reflexivity].
  apply list_elem_of_In, list_elem_of_lookup. eauto.
Qed.

Lemma advance_preserves (s : State) : preserves s (advance s).
Proof. intros b g H. exact H. Qed.

Lemma declines_empty (hist : Hist) (w : mark) : declines EMPTY hist w = true.
Proof. unfold declines. destruct w; reflexivity. Qed.

Lemma declines_false_inv (p : mark) (hist : Hist) (w : mark) :
  declines p hist w = false ->
  p <> EMPTY /\ w = EMPTY /\ hist EMPTY <> 0 /\
  p = (if Nat.leb (hist X) (hist O) then X else O).
Proof.
  unfold declines.
  destruct (mark_eqb w p) eqn:E1; [discriminate|].
  destruct (mark_eqb w EMPTY) eqn:E2; [|discriminate]. simpl.
  destruct (Nat.eqb (hist EMPTY) 0) eqn:E3; [discriminate|].
  apply mark_eqb_eq in E2. subst w. apply Nat.eqb_neq in E3.
  destruct (Nat.leb (hist X) (hist O)) eqn:E4.
  - assert (Nat.ltb (hist O) (hist X) = false) as ->
      by (apply Nat.ltb_ge, Nat.leb_le, E4).
    destruct p; simpl in *; try discriminate; intuition congruence.
  - assert (Nat.ltb (hist O) (hist X) = true) as ->
      by (apply Nat.ltb_lt; apply Nat.leb_gt in E4; exact E4).
    destruct p; simpl in *; try discriminate; intuition congruence.
Qed.

Lemma not_declined_free (p : mark) (g : Grid) :
  wf_grid g = true ->
  declines p (board_histogram g) (check_win g) = false ->
  free_spots g <> [].
Proof.
  intros Hwf Hd. apply declines_false_inv in Hd as (_ & _ & Hh & _).
  rewrite (histogram_empty_count g Hwf) in Hh. intros Hnil. now rewrite Hnil in Hh.
Qed.

Lemma NoRulesAgent_run (p : mark) (b : Board) (s : State) :
  exists mv s', NoRulesAgent_step p b s = Some (mv, s')
                /\ heap s' = heap s /\ proposes (NoRulesAgent p) [] mv.
Proof.
  unfold NoRulesAgent_step. rewrite bind_run.
  destruct (choice_run [true; false] s ltac:(discriminate)) as (turn & _ & ->).
  destruct turn; simpl.
  2:{ eexists _, _. split; [reflexivity|]. simpl. auto. }
  rewrite bind_run.
  destruct (choice_run [0; 1; 2] (advance s) ltac:(discriminate)) as (r & Hr & ->).
  rewrite bind_run.
  destruct (choice_run [0; 1; 2] (advance (advance s)) ltac:(discriminate)) as (c & Hc & ->).
  rewrite bind_run.
  destruct (choice_run [X; O] (advance (advance (advance s))) ltac:(discriminate))
    as (q & Hq & ->).
  eexists _, _. split; [reflexivity|]. simpl. split; [reflexivity|].
  simpl in Hr, Hc, Hq. split.
  - unfold in_range. simpl.
    destruct Hr as [<-|[<-|[<-|[]]]], Hc as [<-|[<-|[<-|[]]]]; reflexivity.
  - intuition.
Qed.

Lemma RandomAgent_run (p : mark) (b : Board) (g : Grid) (s : State) :
  heap s !! b = Some g -> wf_grid g = true ->
  exists mv s', RandomAgent_step p b s = Some (mv, s')
                /\ heap s' = heap s /\ proposes (RandomAgent p) g mv.
Proof.
  intros Hb Hwf. unfold RandomAgent_step. simpl proposes.
  rewrite bind_run, (read_histogram_run _ _ _ Hb).
  rewrite bind_run, (read_check_win_run _ _ _ Hb).
  destruct (declines p (board_histogram g) (check_win g)) eqn:Hd.
  { eexists _, _. split; [reflexivity|]. auto. }
  rewrite bind_run, (read_free_spots_run _ _ _ Hb).
  destruct (choice_run (free_spots g) s (not_declined_free _ _ Hwf Hd)) as (c & Hc & Hrun).
  rewrite bind_run, Hrun.
  eexists _, _. split; [reflexivity|]. simpl. eauto.
Qed.

(** One lookahead loop: the copy holds [g] again whenever an iteration
    ends without returning. *)
Lemma imagine_for_run (p who : mark) (ib : Board) (g : Grid) (moves : list Coordinate) :
  wf_grid g = true ->
  (forall m, In m moves -> In m (free_spots g)) ->
  forall s, heap s !! ib = Some g ->
  exists r s',
    for_return moves (fun move =>
      Board_place ib move who ;;
      w ← read_check_win ib;
      if mark_eqb w who then mret (Some (mkMove move p))
      else Board_place ib move EMPTY ;; mret None) s = Some (r, s')
    /\ preserves_but ib s s' /\ rng s' = rng s
    /\ (forall m, r = Some m -> player m = p /\ In (coordinate m) (free_spots g)).
Proof.
  intros Hwf. induction moves as [|move rest IH]; intros Hin s Hib; simpl.
  - eexists _, _. split; [reflexivity|].
    split; [apply preserves_but_refl|]. split; [reflexivity | discriminate].
  - assert (Hmove : In move (free_spots g)) by (apply Hin; now left).
    apply free_spots_In in Hmove as [Hr Hc].
    destruct (grid_place_wf g move who Hwf Hr) as (g1 & E1 & Hwf1).
    rewrite !bind_run, (Board_place_run _ _ _ _ _ _ Hib E1).
    pose proof (store_set_lookup s ib g g1 Hib) as Hib1.
    rewrite bind_run, (read_check_win_run _ _ _ Hib1).
    destruct (mark_eqb (check_win g1) who).
    + rewrite ret_run. eexists _, _. split; [reflexivity|]. simpl.
      split; [apply store_set_preserves_but|]. split; [reflexivity|].
      intros m [= <-]. simpl. split; [reflexivity | apply Hin; now left].
    + pose proof (grid_place_undo _ _ _ _ Hwf Hc E1) as E2.
      rewrite bind_run, (Board_place_run _ _ _ _ _ _ Hib1 E2), ret_run.
      pose proof (store_set_lookup _ ib g1 g Hib1) as Hib2.
      destruct (IH (fun m Hm => Hin m (or_intror Hm)) _ Hib2) as (r & s' & Hrun & Hp & Hrng & Hres).
      exists r, s'. split; [exact Hrun|]. split; [|split; [|exact Hres]].
      * eapply preserves_but_trans; [apply store_set_preserves_but|].
        eapply preserves_but_trans; [apply store_set_preserves_but|exact Hp].
      * rewrite Hrng. reflexivity.
Qed.

Lemma copy_then_preserves (ib : Board) (g : Grid) (s s' : State) :
  ib = length (heap s) ->
  preserves_but ib (mkState (heap s ++ [g]) (rng s)) s' -> preserves s s'.
Proof.
  intros -> Hp b' g' Hb'. apply Hp.
  - apply lookup_lt_Some in Hb'. lia.
  - simpl. rewrite lookup_app_l; [exact Hb' | eapply lookup_lt_Some, Hb'].
Qed.

Lemma imagine_loop_run (p who : mark) (b : Board) (g : Grid) (s : State) :
  heap s !! b = Some g -> wf_grid g = true ->
  exists r s', imagine_loop p who b s = Some (r, s')
    /\ preserves s s' /\ rng s' = rng s
    /\ (forall m, r = Some m -> player m = p /\ In (coordinate m) (free_spots g)).
Proof.
  intros Hb Hwf. unfold imagine_loop.
  rewrite bind_run, (Board_copy_run _ _ _ Hb Hwf).
  set (ib := length (heap s)). set (s1 := mkState (heap s ++ [g]) (rng s)).
  assert (Hb1 : heap s1 !! b = Some g).
  { simpl. rewrite lookup_app_l; [exact Hb | eapply lookup_lt_Some, Hb]. }
  assert (Hib : heap s1 !! ib = Some g).
  { simpl. apply list_lookup_middle. reflexivity. }
  rewrite bind_run, (read_free_spots_run _ _ _ Hb1).
  destruct (imagine_for_run p who ib g (free_spots g) Hwf (fun m H => H) s1 Hib)
    as (r & s' & Hrun & Hp & Hrng & Hres).
  exists r, s'. split; [exact Hrun|]. split; [|split; [exact Hrng | exact Hres]].
  eapply copy_then_preserves; [reflexivity | exact Hp].
Qed.

Lemma OneStepAheadAgent_run (p : mark) (b : Board) (g : Grid) (s : State) :
  heap s !! b = Some g -> wf_grid g = true ->
  exists mv s', OneStepAheadAgent_step p b s = Some (mv, s')
                /\ preserves s s' /\ proposes (OneStepAheadAgent p) g mv.
Proof.
  intros Hb Hwf. unfold OneStepAheadAgent_step. simpl proposes.
  rewrite bind_run, (read_histogram_run _ _ _ Hb).
  rewrite bind_run, (read_check_win_run _ _ _ Hb).
  destruct (declines p (board_histogram g) (check_win g)) eqn:Hd.
  { eexists _, _. split; [reflexivity|]. auto using preserves_refl. }
  destruct (imagine_loop_run p p b g s Hb Hwf) as (r1 & s1 & Hrun1 & Hp1 & _ & Hres1).
  rewrite bind_run, Hrun1.
  destruct r1 as [m|].
  { eexists _, _. split; [reflexivity|]. split; [exact Hp1|].
    destruct (Hres1 m eq_refl) as [Hpl Hin]. exists (coordinate m). split; [exact Hin|].
    destruct m; simpl in *; congruence. }
  pose proof (Hp1 _ _ Hb) as Hb1.
  destruct (imagine_loop_run p (other_player p) b g s1 Hb1 Hwf) as (r2 & s2 & Hrun2 & Hp2 & _ & Hres2).
  rewrite bind_run, Hrun2.
  destruct r2 as [m|].
  { eexists _, _. split; [reflexivity|]. split; [eapply preserves_trans; eassumption|].
    destruct (Hres2 m eq_refl) as [Hpl Hin]. exists (coordinate m). split; [exact Hin|].
    destruct m; simpl in *; congruence. }
  pose proof (Hp2 _ _ Hb1) as Hb2.
  rewrite bind_run, (read_free_spots_run _ _ _ Hb2).
  destruct (choice_run (free_spots g) s2 (not_declined_free _ _ Hwf Hd)) as (c & Hc & Hrun).
  rewrite bind_run, Hrun.
  eexists _, _. split; [reflexivity|]. split.
  - eapply preserves_trans; [exact Hp1|]. eapply preserves_trans; [exact Hp2|].
    apply advance_preserves.
  - eauto.
Qed.

Lemma fold_max_In (rest : list Z) :
  forall x, In (fold_left Z.max rest x) (x :: rest).
Proof.
  induction rest as [|y rest IH]; intros x; simpl; [now left|].
  destruct (IH (Z.max x y)) as [H|H]; [|now right; right].
  rewrite <- H. destruct (Z.max_spec x y) as [[_ E]|[_ E]]; rewrite E; auto.
Qed.

Lemma max_list_In (l : list Z) (z : Z) : max_list l = Some z -> In z l.
Proof.
  destruct l as [|x rest]; [discriminate|]. simpl. intros [= <-].
  apply (fold_max_In rest x).
Qed.

Lemma highest_value_positions_nonempty (values : Values) (cells : list Coordinate) :
  highest_value_positions values = Some cells ->
  cells <> [] /\ forall c, In c cells -> In c (map fst values).
Proof.
  unfold highest_value_positions.
  destruct (max_list (map snd values)) as [h|] eqn:E; [|discriminate]. simpl.
  intros [= <-]. split.
  - apply max_list_In, in_map_iff in E as ([c v] & Hv & Hin). simpl in Hv. subst v.
    intros Hnil. apply map_eq_nil in Hnil.
    assert (H : In (c, h) (List.filter (fun kv => Z.eqb (snd kv) h) values)).
    { apply filter_In. split; [exact Hin | apply Z.eqb_refl]. }
    rewrite Hnil in H. destruct H.
  - intros c Hc. apply in_map_iff in Hc as (kv & <- & Hkv).
    apply filter_In in Hkv as [Hkv _]. now apply in_map.
Qed.

Lemma MinimaxAgent_run (p : mark) (b : Board) (g : Grid) (s : State) :
  heap s !! b = Some g -> wf_grid g = true ->
  exists mv s', MinimaxAgent_step p b s = Some (mv, s')
                /\ preserves s s' /\ proposes (MinimaxAgent p) g mv.
Proof.
  intros Hb Hwf. unfold MinimaxAgent_step. simpl proposes. unfold minimax_options.
  rewrite bind_run, (read_histogram_run _ _ _ Hb).
  rewrite bind_run, (read_check_win_run _ _ _ Hb).
  destruct (declines p (board_histogram g) (check_win g)) eqn:Hd.
  { eexists _, _. split; [reflexivity|]. split; [apply preserves_refl|].
    exists [None]. split; [reflexivity | now left]. }
  pose proof (declines_false_inv _ _ _ Hd) as (Hp & _).
  destruct (position_values_total b g p s Hb Hwf Hp) as (vs & s1 & Hrun & Hpv & Hkeys & Hp1 & _).
  rewrite bind_run, Hrun. rewrite Hpv. simpl.
  assert (Hne : map snd vs <> []).
  { intros Hnil. apply (not_declined_free _ _ Hwf Hd).
    rewrite <- Hkeys. apply map_eq_nil in Hnil. now subst vs. }
  destruct (max_list_is_Some _ Hne) as (h & Hh).
  destruct (highest_value_positions_nonempty vs
              (map fst (List.filter (fun kv => Z.eqb (snd kv) h) vs))) as [Hcells _].
  { unfold highest_value_positions. now rewrite Hh. }
  unfold max_of, highest_value_positions. rewrite Hh. simpl. rewrite bind_run, ret_run.
  destruct (choice_run _ s1 Hcells) as (c & Hc & Hchoice).
  rewrite bind_run, Hchoice.
  eexists _, _. split; [reflexivity|]. split.
  - eapply preserves_trans; [exact Hp1 | apply advance_preserves].
  - eexists. split; [reflexivity|].
    apply (in_map (fun c => Some (mkMove c p))), Hc.
Qed.

(** Every agent returns, and leaves all existing boards as they were. *)
Lemma Agent_step_run (a : Agent) (b : Board) (g : Grid) (s : State) :
  heap s !! b = Some g -> wf_grid g = true ->
  exists mv s', Agent_step a b s = Some (mv, s')
                /\ preserves s s' /\ proposes a g mv.
Proof.
  intros Hb Hwf. destruct a as [p|p|p|p]; simpl Agent_step.
  - destruct (NoRulesAgent_run p b s) as (mv & s' & Hrun & Hheap & Hprop).
    exists mv, s'. split; [exact Hrun|]. split; [|exact Hprop].
    intros b' g'. now rewrite Hheap.
  - destruct (RandomAgent_run p b g s Hb Hwf) as (mv & s' & Hrun & Hheap & Hprop).
    exists mv, s'. split; [exact Hrun|]. split; [|exact Hprop].
    intros b' g'. now rewrite Hheap.
  - apply OneStepAheadAgent_run; assumption.
  - apply MinimaxAgent_run; assumption.
Qed.

(** A minimax agent, like the other two rule-respecting ones, declines or
    moves to a free spot with its own mark. *)
Lemma minimax_proposes_free (p : mark) (g : Grid) (mv : option Move) :
  wf_grid g = true -> proposes (MinimaxAgent p) g mv -> proposes (RandomAgent p) g mv.
Proof.
  intros Hwf (opts & Hopts & Hin). simpl. unfold minimax_options in Hopts.
  destruct (declines p (board_histogram g) (check_win g)) eqn:Hd.
  { injection Hopts as <-. destruct Hin as [<-|[]]. reflexivity. }
  pose proof (declines_false_inv _ _ _ Hd) as (Hp & _).
  destruct (pv_total 10 g p Hwf Hp) as (vs & Hpv & Hkeys).
  { pose proof (free_spots_bound g). lia. }
  rewrite Hpv in Hopts. simpl in Hopts.
  destruct (highest_value_positions vs) as [cells|] eqn:Hcells; [|discriminate].
  simpl in Hopts. injection Hopts as <-.
  apply in_map_iff in Hin as (c & <- & Hc).
  exists c. split; [|reflexivity].
  rewrite <- Hkeys. eapply highest_value_positions_nonempty; eassumption.
Qed.

Lemma proposes_rule_respecting (a : Agent) (g : Grid) (mv : option Move) :
  wf_grid g = true -> rule_respecting a = true -> proposes a g mv ->
  if declines (agent_mark a) (board_histogram g) (check_win g) then mv = None
  else exists c, In c (free_spots g) /\ mv = Some (mkMove c (agent_mark a)).
Proof.
  intros Hwf Hrr Hprop. destruct a as [p|p|p|p]; simpl in *; try discriminate; auto.
  apply (minimax_proposes_free p g mv Hwf Hprop).
Qed.

(** ** One step of the simulator *)

Lemma proposes_in_range (a : Agent) (g : Grid) (m : Move) :
  wf_grid g = true -> proposes a g (Some m) -> in_range (coordinate m) = true.
Proof.
  intros Hwf Hprop.
  assert (Hfree : forall p, proposes (RandomAgent p) g (Some m) ->
                            in_range (coordinate m) = true).
  { simpl. intros p H. destruct (declines _ _ _); [discriminate|].
    destruct H as (c & Hc & [= ->]). simpl. now apply free_spots_In in Hc. }
  destruct a as [p|p|p|p].
  - simpl in Hprop. tauto.
  - eauto.
  - eauto.
  - eauto using minimax_proposes_free.
Qed.

Lemma apply_move_wf (g g' : Grid) (mv : option Move) :
  wf_grid g = true -> apply_move g mv = Some g' -> wf_grid g' = true.
Proof.
  destruct mv as [m|]; simpl; intros Hwf H.
  - now apply (grid_place_wf_inv _ _ _ _ Hwf H).
  - now injection H as <-.
Qed.

Lemma apply_move_total (a : Agent) (g0 g : Grid) (mv : option Move) :
  wf_grid g0 = true -> wf_grid g = true -> proposes a g0 mv ->
  exists g', apply_move g mv = Some g' /\ wf_grid g' = true.
Proof.
  intros Hwf0 Hwf Hprop. destruct mv as [m|]; simpl.
  - apply grid_place_wf; [exact Hwf | exact (proposes_in_range a g0 m Hwf0 Hprop)].
  - eauto.
Qed.

Lemma place_proposed_run (b : Board) (g g' : Grid) (mv : option Move) (s : State) :
  heap s !! b = Some g -> apply_move g mv = Some g' ->
  exists s', place_proposed b mv s = Some (tt, s')
             /\ heap s' !! b = Some g' /\ preserves_but b s s'.
Proof.
  intros Hb Happ. destruct mv as [m|]; simpl in *.
  - rewrite (Board_place_run _ _ _ _ _ _ Hb Happ). eexists. split; [reflexivity|].
    split; [eapply store_set_lookup, Hb | apply store_set_preserves_but].
  - injection Happ as <-. exists s. split; [reflexivity|].
    split; [exact Hb | apply preserves_but_refl].
Qed.

Lemma Simulator_step_run (sim : Simulator) (g : Grid) (s : State) :
  heap s !! board sim = Some g -> wf_grid g = true ->
  exists xm sx om so g1 g2 s',
    Agent_step (agent_x sim) (board sim) s = Some (xm, sx)
    /\ Agent_step (agent_o sim) (board sim) sx = Some (om, so)
    /\ proposes (agent_x sim) g xm /\ proposes (agent_o sim) g om
    /\ preserves s so
    /\ apply_move g xm = Some g1 /\ apply_move g1 om = Some g2
    /\ wf_grid g2 = true
    /\ heap s' !! board sim = Some g2 /\ preserves_but (board sim) so s'
    /\ Simulator_step sim s =
         match Referee_step (referee sim) g xm om with
         | Some j => Some (Some j, so)
         | None => Some (None, s')
         end.
Proof.
  intros Hb Hwf.
  destruct (Agent_step_run (agent_x sim) _ g s Hb Hwf) as (xm & sx & Hx & Hpx & Hprx).
  pose proof (Hpx _ _ Hb) as Hbx.
  destruct (Agent_step_run (agent_o sim) _ g sx Hbx Hwf) as (om & so & Ho & Hpo & Hpro).
  pose proof (Hpo _ _ Hbx) as Hbo.
  destruct (apply_move_total _ g g xm Hwf Hwf Hprx) as (g1 & Hg1 & Hwf1).
  destruct (apply_move_total _ g g1 om Hwf Hwf1 Hpro) as (g2 & Hg2 & Hwf2).
  destruct (place_proposed_run _ _ _ _ _ Hbo Hg1) as (s1 & Hrun1 & Hb1 & Hp1).
  destruct (place_proposed_run _ _ _ _ _ Hb1 Hg2) as (s2 & Hrun2 & Hb2 & Hp2).
  exists xm, sx, om, so, g1, g2, s2.
  repeat (split; [first [eassumption | eapply preserves_trans; eassumption
                        | eapply preserves_but_trans; eassumption]|]).
  unfold Simulator_step. rewrite bind_run, Hx, bind_run, Ho, bind_run, (deref_run _ _ _ Hbo).
  destruct (Referee_step (referee sim) g xm om); [reflexivity|].
  rewrite bind_run. simpl for_each.
  rewrite bind_run, Hrun1, bind_run, Hrun2. reflexivity.
Qed.

(** ** The strict referee lets a step pass only for one legal move *)

Lemma RegularReferee_continue (g : Grid) (xm om : option Move) :
  RegularReferee_step g xm om = None ->
  exists m, ((xm = Some m /\ om = None) \/ (xm = None /\ om = Some m))
            /\ player m = whose_turn g
            /\ cell g (coordinate m) = EMPTY.
Proof.
  unfold RegularReferee_step, submitted, is_none, move_cell, cell.
  assert (Hturn : whose_turn g = X \/ whose_turn g = O).
  { unfold whose_turn. destruct (Nat.leb _ _); auto. }
  destruct xm as [mx|], om as [mo|];
    repeat match goal with
      | |- context [mark_eqb ?a ?b] => destruct (mark_eqb_spec a b)
      | |- context [all_not_empty g] => destruct (all_not_empty g)
      end; simpl; try discriminate; intros _.
  all: try (destruct Hturn; congruence).
  all: match goal with m : Move |- _ => exists m end;
    (split; [auto|]); (split; [destruct Hturn; congruence | assumption]).
Qed.

(** * Properties of the specification *)

(** ** C1: the win checker *)

Lemma missed_win_grid_play : play missed_win_grid O.
Proof.
  refine (play_move [[EMPTY; EMPTY; EMPTY]; [X; X; EMPTY]; [O; O; EMPTY]] X
            (mkCoordinate 1 2) _ _ eq_refl eq_refl eq_refl).
  refine (play_move [[EMPTY; EMPTY; EMPTY]; [X; X; EMPTY]; [O; EMPTY; EMPTY]] O
            (mkCoordinate 2 1) _ _ eq_refl eq_refl eq_refl).
  refine (play_move [[EMPTY; EMPTY; EMPTY]; [X; EMPTY; EMPTY]; [O; EMPTY; EMPTY]] X
            (mkCoordinate 1 1) _ _ eq_refl eq_refl eq_refl).
  refine (play_move [[EMPTY; EMPTY; EMPTY]; [X; EMPTY; EMPTY]; [EMPTY; EMPTY; EMPTY]] O
            (mkCoordinate 2 0) _ _ eq_refl eq_refl eq_refl).
  refine (play_move empty_grid X (mkCoordinate 1 0) _ _ eq_refl eq_refl eq_refl).
  exact play_start.
Qed.

(** Where the two checkers agree: on the empty board, and on every board
    without a line of three Empty cells, full boards among them. *)
Lemma check_win_empty_grid : check_win empty_grid = EMPTY /\ winner empty_grid = EMPTY.
Proof. split; reflexivity. Qed.

Lemma check_win_without_empty_line (g : Grid) :
  wf_grid g = true -> existsb (empty_line g) lines = false ->
  check_win g = winner g.
Proof.
  intros Hwf Hno. apply mark_eqb_eq.
  pose proof (forall_grids
    (fun g => implb (negb (existsb (empty_line g) lines))
                    (mark_eqb (check_win g) (winner g)))) as H.
  specialize (H ltac:(vm_compute; reflexivity) g Hwf). cbv beta in H.
  rewrite Hno in H. exact H.
Qed.

Lemma check_win_full_board (g : Grid) :
  wf_grid g = true -> isFull g = true -> check_win g = winner g.
Proof.
  intros Hwf Hfull. apply mark_eqb_eq.
  pose proof (forall_grids
    (fun g => implb (isFull g) (mark_eqb (check_win g) (winner g)))) as H.
  specialize (H ltac:(vm_compute; reflexivity) g Hwf). cbv beta in H.
  rewrite Hfull in H. exact H.
Qed.

(** C1 (the code departs from the claim).  On the board
    [--- / XXX / OO-], which alternating legal play reaches, the middle row
    is a completed line of X's and the checker of the specification names
    X, but [check_win] answers EMPTY: its first test finds the three equal
    cells of the empty top row and returns their content. *)
Theorem check_win_misses_line_after_empty_line :
  play missed_win_grid O
  /\ In middle_row lines
  /\ completed missed_win_grid X middle_row = true
  /\ winner missed_win_grid = X
  /\ check_win missed_win_grid = EMPTY.
Proof.
  split; [exact missed_win_grid_play|].
  split; [simpl; auto 10|].
  repeat split.
Qed.

(** ** C3: the values of the minimax search *)

Lemma unreverted_grid_play : play unreverted_grid X.
Proof.
  refine (play_move [[X; X; EMPTY]; [O; O; EMPTY]; [X; EMPTY; EMPTY]] O
            (mkCoordinate 2 1) _ _ eq_refl eq_refl eq_refl).
  refine (play_move [[X; X; EMPTY]; [O; O; EMPTY]; [EMPTY; EMPTY; EMPTY]] X
            (mkCoordinate 2 0) _ _ eq_refl eq_refl eq_refl).
  refine (play_move [[X; X; EMPTY]; [O; EMPTY; EMPTY]; [EMPTY; EMPTY; EMPTY]] O
            (mkCoordinate 1 1) _ _ eq_refl eq_refl eq_refl).
  refine (play_move [[X; EMPTY; EMPTY]; [O; EMPTY; EMPTY]; [EMPTY; EMPTY; EMPTY]] X
            (mkCoordinate 0 1) _ _ eq_refl eq_refl eq_refl).
  refine (play_move [[X; EMPTY; EMPTY]; [EMPTY; EMPTY; EMPTY]; [EMPTY; EMPTY; EMPTY]] O
            (mkCoordinate 1 0) _ _ eq_refl eq_refl eq_refl).
  refine (play_move empty_grid X (mkCoordinate 0 0) _ _ eq_refl eq_refl eq_refl).
  exact play_start.
Qed.

(** C3 (the code departs from the claim).  On the board [XX- / OO- / XO-]
    with X to move, the first free cell (0,2) wins and is scored +1; the
    [continue] that follows skips the line that takes the mark back, so the
    cells (1,2) and (2,2) are evaluated on a board that still shows the
    full top row and are scored +1 as well.  The reference recurrence
    scores them 0 and -1.  With the draw 1 the agent then moves to (1,2),
    which does not win. *)
Theorem position_values_keeps_winning_mark (rs : nat -> nat) :
  play unreverted_grid X
  /\ (exists s',
        position_values 0 X (one_board unreverted_grid rs)
        = Some ([(mkCoordinate 0 2, 1%Z); (mkCoordinate 1 2, 1%Z);
                 (mkCoordinate 2 2, 1%Z)], s'))
  /\ reference_values unreverted_grid X
     = Some [(mkCoordinate 0 2, 1%Z); (mkCoordinate 1 2, 0%Z);
             (mkCoordinate 2 2, (-1)%Z)]
  /\ (exists s',
        MinimaxAgent_step X 0 (one_board unreverted_grid (fun _ => 1))
        = Some (Some (mkMove (mkCoordinate 1 2) X), s')).
Proof.
  split; [exact unreverted_grid_play|].
  split; [|split].
  - destruct (position_values_fun_ok 10 0 unreverted_grid X
                (one_board unreverted_grid rs)
                [(mkCoordinate 0 2, 1%Z); (mkCoordinate 1 2, 1%Z); (mkCoordinate 2 2, 1%Z)])
      as (s' & Hrun & _); [reflexivity | reflexivity | reflexivity |].
    exists s'. exact Hrun.
  - reflexivity.
  - eexists. vm_compute. reflexivity.
Qed.

(** ** C4: the order of the strict referee's checks *)

Lemma is_penalty_for (b : bool) : is_penalty (penalty_for b) = true.
Proof. now destruct b. Qed.

(** C4.  [RegularReferee.step] returns the Outcome of the first of the six
    checks (wrong mark, occupied cell, out of turn, win, draw, skipped turn)
    whose condition holds, and none if no condition holds.  In particular,
    whenever a submitted move is illegal the result is a penalty, also on a
    board that shows a completed line. *)
Theorem strict_referee_first_match (g : Grid) (xm om : option Move) :
  RegularReferee_step g xm om = first_match (strict_checks g xm om)
  /\ (illegal_move g xm om = true ->
      exists j, RegularReferee_step g xm om = Some j /\ is_penalty j = true).
Proof.
  assert (Heq : RegularReferee_step g xm om = first_match (strict_checks g xm om)).
  { unfold RegularReferee_step, strict_checks, first_match, penalty_for,
      wrong_mark_x, wrong_mark_o, occupied, out_of_turn_x, out_of_turn_o,
      skipped_x, skipped_o.
    destruct (submitted xm (fun m => negb (mark_eqb (player m) X))); simpl; [reflexivity|].
    destruct (submitted om (fun m => negb (mark_eqb (player m) O))); simpl; [reflexivity|].
    destruct (submitted xm (fun m => negb (mark_eqb (move_cell g m) EMPTY))); simpl; [reflexivity|].
    destruct (submitted om (fun m => negb (mark_eqb (move_cell g m) EMPTY))); simpl; [reflexivity|].
    destruct (submitted xm (fun _ => mark_eqb (whose_turn g) O)); simpl; [reflexivity|].
    destruct (submitted om (fun _ => mark_eqb (whose_turn g) X)); simpl; [reflexivity|].
    destruct (mark_eqb (check_win g) X); simpl; [reflexivity|].
    destruct (mark_eqb (check_win g) O); simpl; [reflexivity|].
    destruct (all_not_empty g && mark_eqb (check_win g) EMPTY); simpl; [reflexivity|].
    destruct (is_none xm && mark_eqb (whose_turn g) X); simpl; [reflexivity|].
    destruct (is_none om && mark_eqb (whose_turn g) O); reflexivity. }
  split; [exact Heq|].
  rewrite Heq. unfold illegal_move, strict_checks, first_match.
  intros Hill.
  destruct (wrong_mark_x xm || wrong_mark_o om) eqn:E1;
    [eexists; split; [reflexivity | apply is_penalty_for]|].
  destruct (occupied g xm || occupied g om) eqn:E2;
    [eexists; split; [reflexivity | apply is_penalty_for]|].
  destruct (out_of_turn_x g xm || out_of_turn_o g om) eqn:E3;
    [eexists; split; [reflexivity | apply is_penalty_for]|].
  discriminate Hill.
Qed.

(** At a board with three X's in the top row, an O submitted by the X
    agent is penalised and X_WINS is not returned. *)
Lemma strict_referee_first_match_witness :
  check_win [[X; X; X]; [O; O; EMPTY]; [EMPTY; EMPTY; EMPTY]] = X
  /\ exists j,
       RegularReferee_step [[X; X; X]; [O; O; EMPTY]; [EMPTY; EMPTY; EMPTY]]
         (Some (mkMove (mkCoordinate 2 2) O)) None = Some j
       /\ is_penalty j = true.
Proof.
  split; [reflexivity|].
  apply (strict_referee_first_match
           [[X; X; X]; [O; O; EMPTY]; [EMPTY; EMPTY; EMPTY]]
           (Some (mkMove (mkCoordinate 2 2) O)) None).
  reflexivity.
Defined.

(** ** C8: no move from either player *)

(** C8 (counterexample).  On the empty board nothing is won, drawn or
    illegal and nobody moved, yet the strict referee does not return none:
    it is X's turn and X is penalised. *)
Lemma strict_referee_silence_penalised :
  check_win empty_grid = EMPTY
  /\ all_not_empty empty_grid = false
  /\ illegal_move empty_grid None None = false
  /\ RegularReferee_step empty_grid None None = Some X_PENALTY.
Proof. repeat split. Qed.

(** C8 (amended).  On a board with no winner that is not a draw, if
    neither player submitted a move the strict referee penalises the player
    whose turn the histogram rule says it is. *)
Theorem strict_referee_silence (g : Grid) :
  mark_eqb (check_win g) X = false ->
  mark_eqb (check_win g) O = false ->
  all_not_empty g && mark_eqb (check_win g) EMPTY = false ->
  RegularReferee_step g None None
  = Some (if mark_eqb (whose_turn g) X then X_PENALTY else O_PENALTY).
Proof.
  intros H1 H2 H3. unfold RegularReferee_step. simpl. rewrite H1, H2, H3.
  unfold whose_turn. destruct (Nat.leb _ _); reflexivity.
Qed.

Lemma strict_referee_silence_witness :
  RegularReferee_step empty_grid None None
  = Some (if mark_eqb (whose_turn empty_grid) X then X_PENALTY else O_PENALTY).
Proof. apply (strict_referee_silence empty_grid); reflexivity. Defined.

(** ** C9: the turn rule *)

Lemma play_invariant (g : Grid) (p : mark) :
  play g p ->
  wf_grid g = true
  /\ ((p = X /\ board_histogram g X = board_histogram g O)
      \/ (p = O /\ board_histogram g X = S (board_histogram g O))).
Proof.
  induction 1 as [|g p c g' Hplay [Hwf IH] Hr Hc Hpl].
  - split; [reflexivity|]. left. split; reflexivity.
  - split; [now apply (grid_place_wf_inv _ _ _ _ Hwf Hpl)|].
    destruct IH as [[-> Heq]|[-> Heq]].
    + destruct (histogram_place g g' c X Hwf Hc ltac:(discriminate) Hpl) as [H1 H2].
      change (other_player X) with O in H2.
      right. split; [reflexivity|]. lia.
    + destruct (histogram_place g g' c O Hwf Hc ltac:(discriminate) Hpl) as [H1 H2].
      change (other_player O) with X in H2.
      left. split; [reflexivity|]. lia.
Qed.

(** C9.  On every board reached by alternating legal play that X began,
    [whose_turn] (X when the count of O is at least the count of X,
    otherwise O) is the player who moves next. *)
Theorem whose_turn_names_mover (g : Grid) (p : mark) :
  play g p -> whose_turn g = p.
Proof.
  intros H. apply play_invariant in H as [_ [[-> Heq]|[-> Heq]]]; unfold whose_turn.
  - rewrite Heq, Nat.leb_refl. reflexivity.
  - rewrite Heq. destruct (Nat.leb_spec (S (board_histogram g O)) (board_histogram g O));
      [lia | reflexivity].
Qed.

Lemma whose_turn_names_mover_witness : whose_turn missed_win_grid = O.
Proof. apply (whose_turn_names_mover missed_win_grid O). exact missed_win_grid_play. Defined.

(** ** C6: the pre-move checks *)

Lemma declines_pre_move (p : mark) (g : Grid) :
  wf_grid g = true ->
  declines p (board_histogram g) (check_win g) = pre_move_decline p g.
Proof.
  intros Hwf. apply eqb_prop.
  pose proof (forall_grids
    (fun g => forallb (fun p =>
       eqb (declines p (board_histogram g) (check_win g)) (pre_move_decline p g))
       all_marks)) as H.
  specialize (H ltac:(vm_compute; reflexivity) g Hwf). cbv beta in H.
  rewrite forallb_forall in H. apply H, all_marks_complete.
Qed.

(** C6.  On every board, an agent of class [RandomAgent],
    [OneStepAheadAgent] or [MinimaxAgent] returns; it returns none exactly
    when one of the four pre-move checks holds (own mark reported as
    winner, opponent's mark reported as winner, board full, not its turn by
    the histogram rule), and otherwise a Move with its own mark on a cell
    of the grid that is Empty on the input board. *)
Theorem rule_respecting_agent_step (a : Agent) (b : Board) (g : Grid) (s : State) :
  rule_respecting a = true ->
  heap s !! b = Some g -> wf_grid g = true ->
  exists mv s',
    Agent_step a b s = Some (mv, s')
    /\ (mv = None <-> pre_move_decline (agent_mark a) g = true)
    /\ (forall m, mv = Some m ->
          player m = agent_mark a
          /\ in_range (coordinate m) = true
          /\ cell g (coordinate m) = EMPTY).
Proof.
  intros Hrr Hb Hwf.
  destruct (Agent_step_run a b g s Hb Hwf) as (mv & s' & Hrun & _ & Hprop).
  exists mv, s'. split; [exact Hrun|].
  apply (proposes_rule_respecting a g mv Hwf Hrr) in Hprop.
  rewrite (declines_pre_move _ _ Hwf) in Hprop.
  destruct (pre_move_decline (agent_mark a) g).
  - subst mv. split; [tauto | discriminate].
  - destruct Hprop as (c & Hc & ->). apply free_spots_In in Hc as [Hr Hcell].
    split; [split; discriminate|].
    intros m [= <-]. simpl. auto.
Qed.

Lemma rule_respecting_agent_step_witness :
  exists mv s',
    Agent_step (MinimaxAgent O) 0 (one_board missed_win_grid (fun _ => 0)) = Some (mv, s')
    /\ (mv = None <-> pre_move_decline O missed_win_grid = true)
    /\ (forall m, mv = Some m ->
          player m = O
          /\ in_range (coordinate m) = true
          /\ cell missed_win_grid (coordinate m) = EMPTY).
Proof.
  apply (rule_respecting_agent_step (MinimaxAgent O) 0 missed_win_grid
           (one_board missed_win_grid (fun _ => 0))); reflexivity.
Defined.

(** ** C10: the board handed to an agent *)

(** C10.  A call of [step] on any of the four agents returns and leaves
    the board it was given, and every other board that existed before the
    call, with the contents it had: the hypothetical placements of the
    lookahead and of the minimax search go to boards allocated during the
    call. *)
Theorem agent_step_leaves_board (a : Agent) (b : Board) (g : Grid) (s : State) :
  heap s !! b = Some g -> wf_grid g = true ->
  exists mv s',
    Agent_step a b s = Some (mv, s')
    /\ heap s' !! b = Some g
    /\ (forall b' g', heap s !! b' = Some g' -> heap s' !! b' = Some g').
Proof.
  intros Hb Hwf.
  destruct (Agent_step_run a b g s Hb Hwf) as (mv & s' & Hrun & Hpres & _).
  exists mv, s'. split; [exact Hrun|]. split; [apply Hpres, Hb | exact Hpres].
Qed.

Lemma agent_step_leaves_board_witness :
  exists mv s',
    Agent_step (OneStepAheadAgent X) 0 (one_board unreverted_grid (fun _ => 0)) = Some (mv, s')
    /\ heap s' !! 0 = Some unreverted_grid
    /\ (forall b' g', heap (one_board unreverted_grid (fun _ => 0)) !! b' = Some g' ->
                      heap s' !! b' = Some g').
Proof.
  apply (agent_step_leaves_board (OneStepAheadAgent X) 0 unreverted_grid
           (one_board unreverted_grid (fun _ => 0))); reflexivity.
Defined.

(** ** C7: what a simulation step does to the board *)

(** C7.  In a step on a board with contents [g], both agents are asked
    (X, then O) and the referee judges [g] with their answers.  If it
    returns an Outcome, that is the result of the step and the board still
    holds [g].  Otherwise the step returns none and the board holds [g]
    with X's move applied and then O's move applied, each if not none; if
    both moves name the same cell, the cell ends with the mark of O's
    move. *)
Theorem simulator_step_board (sim : Simulator) (g : Grid) (s : State) :
  heap s !! board sim = Some g -> wf_grid g = true ->
  exists xm sx om so,
    Agent_step (agent_x sim) (board sim) s = Some (xm, sx)
    /\ Agent_step (agent_o sim) (board sim) sx = Some (om, so)
    /\ match Referee_step (referee sim) g xm om with
       | Some j =>
           Simulator_step sim s = Some (Some j, so)
           /\ heap so !! board sim = Some g
       | None =>
           exists s' g1 g2,
             Simulator_step sim s = Some (None, s')
             /\ apply_move g xm = Some g1
             /\ apply_move g1 om = Some g2
             /\ heap s' !! board sim = Some g2
             /\ (forall mx mo, xm = Some mx -> om = Some mo ->
                   coordinate mx = coordinate mo ->
                   cell g2 (coordinate mo) = player mo)
       end.
Proof.
  intros Hb Hwf.
  destruct (Simulator_step_run sim g s Hb Hwf)
    as (xm & sx & om & so & g1 & g2 & s' & Hx & Ho & _ & _ & Hpres & Hg1 & Hg2 & _ & Hb' & _ & Hstep).
  exists xm, sx, om, so. split; [exact Hx|]. split; [exact Ho|].
  destruct (Referee_step (referee sim) g xm om) as [j|].
  - split; [exact Hstep | apply Hpres, Hb].
  - exists s', g1, g2. repeat (split; [assumption|]).
    intros mx mo -> -> _. simpl in Hg1, Hg2.
    destruct (grid_place_wf_inv _ _ _ _ Hwf Hg1) as [Hwf1 _].
    rewrite (grid_place_cell g1 g2 (coordinate mo) (coordinate mo) (player mo) Hwf1 Hg2).
    assert (E : coord_eqb (coordinate mo) (coordinate mo) = true) by now apply coord_eqb_eq.
    now rewrite E.
Qed.

Lemma simulator_step_board_witness :
  exists xm sx om so,
    Agent_step (agent_x lawless_sim) (board lawless_sim) (one_board empty_grid (fun _ => 0))
      = Some (xm, sx)
    /\ Agent_step (agent_o lawless_sim) (board lawless_sim) sx = Some (om, so)
    /\ match Referee_step (referee lawless_sim) empty_grid xm om with
       | Some j =>
           Simulator_step lawless_sim (one_board empty_grid (fun _ => 0)) = Some (Some j, so)
           /\ heap so !! board lawless_sim = Some empty_grid
       | None =>
           exists s' g1 g2,
             Simulator_step lawless_sim (one_board empty_grid (fun _ => 0)) = Some (None, s')
             /\ apply_move empty_grid xm = Some g1
             /\ apply_move g1 om = Some g2
             /\ heap s' !! board lawless_sim = Some g2
             /\ (forall mx mo, xm = Some mx -> om = Some mo ->
                   coordinate mx = coordinate mo ->
                   cell g2 (coordinate mo) = player mo)
       end.
Proof.
  apply (simulator_step_board lawless_sim empty_grid (one_board empty_grid (fun _ => 0)));
    reflexivity.
Defined.

(** ** C5: games under the strict referee end *)

Lemma whose_turn_mark (g : Grid) : whose_turn g = X \/ whose_turn g = O.
Proof. unfold whose_turn. destruct (Nat.leb _ _); auto. Qed.

(** A step that the strict referee lets pass puts one mark of X or O on
    an Empty cell. *)
Lemma strict_step_places_one (sim : Simulator) (g : Grid) (s s' : State) :
  referee sim = RegularReferee ->
  heap s !! board sim = Some g -> wf_grid g = true ->
  Simulator_step sim s = Some (None, s') ->
  exists m g',
    in_range (coordinate m) = true
    /\ cell g (coordinate m) = EMPTY
    /\ (player m = X \/ player m = O)
    /\ grid_place g (coordinate m) (player m) = Some g'
    /\ wf_grid g' = true
    /\ heap s' !! board sim = Some g'
    /\ S (length (free_spots g')) = length (free_spots g).
Proof.
  intros Href Hb Hwf Hstep.
  destruct (Simulator_step_run sim g s Hb Hwf)
    as (xm & sx & om & so & g1 & g2 & s2 & _ & _ & _ & _ & _ & Hg1 & Hg2 & Hwf2 & Hb2 & _ & Hrun).
  rewrite Hstep, Href in Hrun. simpl in Hrun.
  destruct (RegularReferee_step g xm om) as [j|] eqn:Hj; [discriminate|].
  injection Hrun as ->.
  destruct (RegularReferee_continue g xm om Hj) as (m & Hwho & Hpl & Hcell).
  assert (Hmark : player m = X \/ player m = O)
    by (rewrite Hpl; apply whose_turn_mark).
  assert (Hplace : grid_place g (coordinate m) (player m) = Some g2).
  { destruct Hwho as [[-> ->]|[-> ->]]; simpl in Hg1, Hg2; congruence. }
  exists m, g2.
  destruct (grid_place_wf_inv _ _ _ _ Hwf Hplace) as [_ Hr].
  repeat (split; [assumption|]).
  apply (free_spots_place g g2 (coordinate m) (player m) Hwf Hcell); [|exact Hplace].
  destruct Hmark as [-> | ->]; discriminate.
Qed.

Lemma strict_run_terminates (n : nat) :
  forall (sim : Simulator) (g : Grid) (s : State),
  referee sim = RegularReferee ->
  heap s !! board sim = Some g -> wf_grid g = true ->
  length (free_spots g) < n ->
  exists j s', Simulator_run n sim s = Some (j, s').
Proof.
  induction n as [|n IH]; intros sim g s Href Hb Hwf Hlen; [lia|].
  simpl. rewrite bind_run.
  destruct (Simulator_step_run sim g s Hb Hwf)
    as (xm & sx & om & so & g1 & g2 & s2 & _ & _ & _ & _ & _ & _ & _ & _ & _ & _ & Hrun).
  destruct (Referee_step (referee sim) g xm om) as [j|] eqn:Hj.
  - rewrite Hrun. eauto.
  - destruct (strict_step_places_one sim g s s2 Href Hb Hwf Hrun)
      as (m & g' & _ & _ & _ & _ & Hwf' & Hb' & Hcount).
    rewrite Hrun. apply (IH sim g' s2 Href Hb' Hwf'). lia.
Qed.

Lemma Simulator_init_run (ax ao : Agent) (r : Referee) (s : State) :
  Simulator_init ax ao r s
  = Some (mkSimulator ax ao r (length (heap s)),
          mkState (heap s ++ [empty_grid]) (rng s)).
Proof. reflexivity. Qed.

(** C5.  A game between any two agents under the strict referee returns
    an Outcome within ten steps of the simulator, from any store and for
    any random draws; and a step that does not end the game places
    exactly one mark, X or O, on a cell that was Empty, so that at most
    nine placements precede the Outcome. *)
Theorem strict_game_terminates (ax ao : Agent) (s : State) :
  (exists j s', game 10 ax ao RegularReferee s = Some (j, s'))
  /\ (forall sim g s0 s1,
        referee sim = RegularReferee ->
        heap s0 !! board sim = Some g -> wf_grid g = true ->
        Simulator_step sim s0 = Some (None, s1) ->
        exists m g',
          in_range (coordinate m) = true
          /\ cell g (coordinate m) = EMPTY
          /\ (player m = X \/ player m = O)
          /\ grid_place g (coordinate m) (player m) = Some g'
          /\ heap s1 !! board sim = Some g'
          /\ S (length (free_spots g')) = length (free_spots g)).
Proof.
  split.
  - unfold game. rewrite bind_run, Simulator_init_run.
    apply (strict_run_terminates 10 _ empty_grid).
    + reflexivity.
    + simpl. apply list_lookup_middle. reflexivity.
    + reflexivity.
    + simpl. lia.
  - intros sim g s0 s1 Href Hb Hwf Hstep.
    destruct (strict_step_places_one sim g s0 s1 Href Hb Hwf Hstep)
      as (m & g' & H1 & H2 & H3 & H4 & _ & H5 & H6).
    exists m, g'. auto 10.
Qed.

Lemma strict_game_terminates_witness :
  (exists j s',
     game 10 (RandomAgent X) (RandomAgent O) RegularReferee (one_board empty_grid (fun _ => 0))
     = Some (j, s'))
  /\ exists m g',
       in_range (coordinate m) = true
       /\ cell empty_grid (coordinate m) = EMPTY
       /\ (player m = X \/ player m = O)
       /\ grid_place empty_grid (coordinate m) (player m) = Some g'
       /\ heap (one_board [[X; EMPTY; EMPTY]; [EMPTY; EMPTY; EMPTY]; [EMPTY; EMPTY; EMPTY]]
                  (fun _ => 0)) !! board random_sim = Some g'
       /\ S (length (free_spots g')) = length (free_spots empty_grid).
Proof.
  destruct (strict_game_terminates (RandomAgent X) (RandomAgent O)
              (one_board empty_grid (fun _ => 0))) as [Hends Hstep].
  split; [exact Hends|].
  apply (Hstep random_sim empty_grid (one_board empty_grid (fun _ => 0))); reflexivity.
Defined.

(** ** C2: minimax against minimax *)

Lemma is_draw_inv (j : Judgement) : is_draw j = true -> j = DRAW.
Proof. destruct j; simpl; congruence. Qed.

Lemma all_draw_run (n : nat) :
  forall (sim : Simulator) (g : Grid) (s : State),
  agent_x sim = MinimaxAgent X -> agent_o sim = MinimaxAgent O ->
  referee sim = RegularReferee ->
  heap s !! board sim = Some g -> wf_grid g = true ->
  all_draw n g = true ->
  exists s', Simulator_run n sim s = Some (DRAW, s').
Proof.
  induction n as [|n IH]; intros sim g s Hax Hao Href Hb Hwf Hall; [discriminate|].
  simpl in Hall. simpl Simulator_run. rewrite bind_run.
  destruct (Simulator_step_run sim g s Hb Hwf)
    as (xm & sx & om & so & g1 & g2 & s2 & _ & _ & Hpx & Hpo & _ & Hg1 & Hg2 & Hwf2 & Hb2 & _ & Hrun).
  rewrite Hax in Hpx. rewrite Hao in Hpo.
  destruct Hpx as (xs & Hxs & Hinx). destruct Hpo as (os & Hos & Hino).
  rewrite Hxs, Hos in Hall.
  rewrite forallb_forall in Hall. specialize (Hall xm Hinx).
  rewrite forallb_forall in Hall. specialize (Hall om Hino).
  rewrite Hrun, Href. simpl Referee_step.
  destruct (RegularReferee_step g xm om) as [j|].
  - apply is_draw_inv in Hall. subst j. eauto.
  - rewrite Hg1 in Hall. simpl in Hall. rewrite Hg2 in Hall.
    apply (IH sim g2 s2 Hax Hao Href Hb2 Hwf2 Hall).
Qed.

Lemma all_draw_empty_grid : all_draw 10 empty_grid = true.
Proof. vm_cast_no_check (eq_refl true). Qed.

Lemma Simulator_run_more (n k : nat) (sim : Simulator) :
  forall (s : State) (r : Judgement * State),
  Simulator_run n sim s = Some r -> Simulator_run (n + k) sim s = Some r.
Proof.
  induction n as [|n IH]; intros s r; simpl; [discriminate|].
  rewrite !bind_run. destruct (Simulator_step sim s) as [[[j|] s']|]; auto.
Qed.

(** C2.  A game between [MinimaxAgent(X)] and [MinimaxAgent(O)] under
    [RegularReferee] returns DRAW, from any store and for any sequence of
    random draws, as soon as the loop is given the ten steps it takes. *)
Theorem minimax_vs_minimax_draw (s : State) (k : nat) :
  exists s',
    game (10 + k) (MinimaxAgent X) (MinimaxAgent O) RegularReferee s = Some (DRAW, s').
Proof.
  unfold game. rewrite bind_run, Simulator_init_run.
  set (sim := mkSimulator _ _ _ _). set (s0 := mkState _ _).
  assert (Hb : heap s0 !! board sim = Some empty_grid).
  { simpl. apply list_lookup_middle. reflexivity. }
  destruct (all_draw_run 10 sim empty_grid s0 eq_refl eq_refl eq_refl Hb
              empty_grid_wf all_draw_empty_grid) as (s' & Hrun).
  exists s'. apply Simulator_run_more, Hrun.
Qed.

(** * Further properties *)

(** ** The agents as functions of the board and the draws *)

Lemma choice_fun_ok {A} (xs : list A) (s : State) :
  choice xs s =
  match choice_fun xs (rng s) with
  | Some (x, rs') => Some (x, mkState (heap s) rs')
  | None => None
  end.
Proof.
  unfold choice, choice_fun. destruct (xs !! (rng s 0 mod length xs)); reflexivity.
Qed.

Lemma choice_fun_total {A} (xs : list A) (rs : nat -> nat) :
  xs <> [] -> exists x, In x xs /\ choice_fun xs rs = Some (x, shift rs).
Proof.
  intros Hne. unfold choice_fun.
  assert (Hlt : rs 0 mod length xs < length xs).
  { apply Nat.mod_upper_bound. destruct xs; [congruence | simpl; lia]. }
  destruct (lookup_lt_is_Some_2 xs _ Hlt) as [x Hx].
  exists x. rewrite Hx. split; [|reflexivity].
  apply list_elem_of_In, list_elem_of_lookup. eauto.
Qed.

Lemma NoRulesAgent_fun_ok (p : mark) (b : Board) (s : State) :
  NoRulesAgent_step p b s =
  match NoRulesAgent_fun (rng s) with
  | Some (mv, rs') => Some (mv, mkState (heap s) rs')
  | None => None
  end.
Proof.
  unfold NoRulesAgent_step, NoRulesAgent_fun.
  rewrite bind_run, choice_fun_ok.
  destruct (choice_fun [true; false] (rng s)) as [[turn rs1]|]; [|reflexivity]. simpl.
  destruct turn; simpl; [|reflexivity].
  rewrite bind_run, choice_fun_ok. simpl rng.
  destruct (choice_fun [0; 1; 2] rs1) as [[r rs2]|]; [|reflexivity]. simpl.
  rewrite bind_run, choice_fun_ok. simpl rng.
  destruct (choice_fun [0; 1; 2] rs2) as [[c rs3]|]; [|reflexivity]. simpl.
  rewrite bind_run, choice_fun_ok. simpl rng.
  destruct (choice_fun [X; O] rs3) as [[q rs4]|]; reflexivity.
Qed.

Lemma random_move_ok (p : mark) (cells : list Coordinate) (s : State) :
  (random_free_spot ← choice cells; mret (Some (mkMove random_free_spot p))) s =
  match random_move p cells (rng s) with
  | Some (mv, rs') => Some (mv, mkState (heap s) rs')
  | None => None
  end.
Proof.
  unfold random_move. rewrite bind_run, choice_fun_ok.
  destruct (choice_fun cells (rng s)) as [[c rs']|]; reflexivity.
Qed.

Lemma random_move_total (p : mark) (cells : list Coordinate) (rs : nat -> nat) :
  cells <> [] ->
  exists c, In c cells /\ random_move p cells rs = Some (Some (mkMove c p), shift rs).
Proof.
  intros Hne. destruct (choice_fun_total cells rs Hne) as (c & Hc & Hrun).
  exists c. split; [exact Hc|]. unfold random_move. now rewrite Hrun.
Qed.

(** A lookahead loop returns the move to the first cell where the
    imagined mark wins, and none if there is no such cell. *)
Lemma imagine_for_exact (p who : mark) (ib : Board) (g : Grid) (moves : list Coordinate) :
  wf_grid g = true ->
  (forall m, In m moves -> In m (free_spots g)) ->
  forall s, heap s !! ib = Some g ->
  exists s',
    for_return moves (fun move =>
      Board_place ib move who ;;
      w ← read_check_win ib;
      if mark_eqb w who then mret (Some (mkMove move p))
      else Board_place ib move EMPTY ;; mret None) s
    = Some ((fun c => mkMove c p) <$> find (wins_at who g) moves, s')
    /\ preserves_but ib s s' /\ rng s' = rng s.
Proof.
  intros Hwf. induction moves as [|move rest IH]; intros Hin s Hib; simpl.
  - exists s. split; [reflexivity|]. split; [apply preserves_but_refl | reflexivity].
  - assert (Hmove : In move (free_spots g)) by (apply Hin; now left).
    apply free_spots_In in Hmove as [Hr Hc].
    destruct (grid_place_wf g move who Hwf Hr) as (g1 & E1 & Hwf1).
    rewrite !bind_run, (Board_place_run _ _ _ _ _ _ Hib E1).
    pose proof (store_set_lookup s ib g g1 Hib) as Hib1.
    rewrite bind_run, (read_check_win_run _ _ _ Hib1).
    unfold wins_at at 1. rewrite E1.
    destruct (mark_eqb (check_win g1) who).
    + rewrite ret_run. eexists. split; [reflexivity|]. simpl.
      split; [apply store_set_preserves_but | reflexivity].
    + pose proof (grid_place_undo _ _ _ _ Hwf Hc E1) as E2.
      rewrite bind_run, (Board_place_run _ _ _ _ _ _ Hib1 E2), ret_run.
      pose proof (store_set_lookup _ ib g1 g Hib1) as Hib2.
      destruct (IH (fun m Hm => Hin m (or_intror Hm)) _ Hib2) as (s' & Hrun & Hp & Hrng).
      exists s'. split; [exact Hrun|]. split.
      * eapply preserves_but_trans; [apply store_set_preserves_but|].
        eapply preserves_but_trans; [apply store_set_preserves_but|exact Hp].
      * rewrite Hrng. reflexivity.
Qed.

Lemma imagine_loop_exact (p who : mark) (b : Board) (g : Grid) (s : State) :
  heap s !! b = Some g -> wf_grid g = true ->
  exists s', imagine_loop p who b s
             = Some ((fun c => mkMove c p) <$> first_winning who g, s')
    /\ preserves s s' /\ rng s' = rng s.
Proof.
  intros Hb Hwf. unfold imagine_loop, first_winning.
  rewrite bind_run, (Board_copy_run _ _ _ Hb Hwf).
  set (ib := length (heap s)). set (s1 := mkState (heap s ++ [g]) (rng s)).
  assert (Hb1 : heap s1 !! b = Some g).
  { simpl. rewrite lookup_app_l; [exact Hb | eapply lookup_lt_Some, Hb]. }
  assert (Hib : heap s1 !! ib = Some g).
  { simpl. apply list_lookup_middle. reflexivity. }
  rewrite bind_run, (read_free_spots_run _ _ _ Hb1).
  destruct (imagine_for_exact p who ib g (free_spots g) Hwf (fun m H => H) s1 Hib)
    as (s' & Hrun & Hp & Hrng).
  exists s'. split; [exact Hrun|]. split; [|exact Hrng].
  eapply copy_then_preserves; [reflexivity | exact Hp].
Qed.

Lemma preserves_same_heap (s s' : State) : heap s' = heap s -> preserves s s'.
Proof. intros H b g. now rewrite H. Qed.

(** Every agent returns what its functional reading computes from the
    contents of the board and the draws, uses up the draws that reading
    uses up, and leaves the existing boards alone. *)
Lemma Agent_step_fun_ok (a : Agent) (b : Board) (g : Grid) (s : State) :
  heap s !! b = Some g -> wf_grid g = true ->
  exists mv s',
    Agent_step a b s = Some (mv, s')
    /\ agent_fun a g (rng s) = Some (mv, rng s')
    /\ preserves s s'.
Proof.
  intros Hb Hwf. destruct a as [p|p|p|p]; simpl Agent_step; unfold agent_fun.
  - rewrite NoRulesAgent_fun_ok.
    destruct (NoRulesAgent_run p b s) as (mv0 & s0 & Hrun & _).
    rewrite NoRulesAgent_fun_ok in Hrun.
    destruct (NoRulesAgent_fun (rng s)) as [[mv rs']|]; [|discriminate].
    eexists _, _. split; [reflexivity|]. split; [reflexivity|].
    now apply preserves_same_heap.
  - unfold RandomAgent_step.
    rewrite bind_run, (read_histogram_run _ _ _ Hb).
    rewrite bind_run, (read_check_win_run _ _ _ Hb).
    destruct (declines p (board_histogram g) (check_win g)) eqn:Hd.
    { eexists _, _. split; [reflexivity|]. split; [reflexivity | apply preserves_refl]. }
    rewrite bind_run, (read_free_spots_run _ _ _ Hb), random_move_ok.
    destruct (random_move_total p (free_spots g) (rng s) (not_declined_free _ _ Hwf Hd))
      as (c & _ & ->).
    eexists _, _. split; [reflexivity|]. split; [reflexivity|].
    now apply preserves_same_heap.
  - unfold OneStepAheadAgent_step.
    rewrite bind_run, (read_histogram_run _ _ _ Hb).
    rewrite bind_run, (read_check_win_run _ _ _ Hb).
    destruct (declines p (board_histogram g) (check_win g)) eqn:Hd.
    { eexists _, _. split; [reflexivity|]. split; [reflexivity | apply preserves_refl]. }
    destruct (imagine_loop_exact p p b g s Hb Hwf) as (s1 & Hrun1 & Hp1 & Hr1).
    rewrite bind_run, Hrun1.
    destruct (first_winning p g) as [c|]; simpl.
    { eexists _, _. split; [reflexivity|]. split; [now rewrite Hr1 | exact Hp1]. }
    pose proof (Hp1 _ _ Hb) as Hb1.
    destruct (imagine_loop_exact p (other_player p) b g s1 Hb1 Hwf) as (s2 & Hrun2 & Hp2 & Hr2).
    rewrite bind_run, Hrun2.
    destruct (first_winning (other_player p) g) as [c|]; simpl.
    { eexists _, _. split; [reflexivity|]. split; [now rewrite Hr2, Hr1|].
      eapply preserves_trans; eassumption. }
    pose proof (Hp2 _ _ Hb1) as Hb2.
    rewrite bind_run, (read_free_spots_run _ _ _ Hb2), random_move_ok.
    rewrite Hr2, Hr1.
    destruct (random_move_total p (free_spots g) (rng s) (not_declined_free _ _ Hwf Hd))
      as (c & _ & ->).
    eexists _, _. split; [reflexivity|]. split; [reflexivity|].
    eapply preserves_trans; [exact Hp1|]. eapply preserves_trans; [exact Hp2|].
    now apply preserves_same_heap.
  - unfold MinimaxAgent_step.
    rewrite bind_run, (read_histogram_run _ _ _ Hb).
    rewrite bind_run, (read_check_win_run _ _ _ Hb).
    destruct (declines p (board_histogram g) (check_win g)) eqn:Hd.
    { eexists _, _. split; [reflexivity|]. split; [reflexivity | apply preserves_refl]. }
    pose proof (declines_false_inv _ _ _ Hd) as (Hp & _).
    destruct (position_values_total b g p s Hb Hwf Hp)
      as (vs & s1 & Hrun & Hpv & Hkeys & Hp1 & Hr1).
    rewrite bind_run, Hrun, Hpv. simpl.
    assert (Hne : map snd vs <> []).
    { intros Hnil. apply (not_declined_free _ _ Hwf Hd).
      rewrite <- Hkeys. apply map_eq_nil in Hnil. now subst vs. }
    destruct (max_list_is_Some _ Hne) as (h & Hh).
    destruct (highest_value_positions_nonempty vs
                (map fst (List.filter (fun kv => Z.eqb (snd kv) h) vs))) as [Hcells _].
    { unfold highest_value_positions. now rewrite Hh. }
    unfold max_of, highest_value_positions. rewrite Hh. simpl.
    rewrite bind_run, ret_run, random_move_ok, Hr1.
    destruct (random_move_total p _ (rng s) Hcells) as (c & _ & ->).
    eexists _, _. split; [reflexivity|]. split; [reflexivity|].
    eapply preserves_trans; [exact Hp1 | now apply preserves_same_heap].
Qed.

(** ** The simulator as a function of the board and the draws *)

Lemma place_proposed_rng (b : Board) (mv : option Move) (s s' : State) :
  place_proposed b mv s = Some (tt, s') -> rng s' = rng s.
Proof.
  destruct mv as [m|]; simpl.
  - unfold Board_place. destruct (heap s !! b) as [g|]; [|discriminate].
    destruct (grid_place g _ _); [|discriminate]. now intros [= <-].
  - now intros [= <-].
Qed.

Lemma Simulator_step_fun_ok (sim : Simulator) (g : Grid) (s : State) :
  heap s !! board sim = Some g -> wf_grid g = true ->
  exists j g' s',
    Simulator_step sim s = Some (j, s')
    /\ sim_step_fun (agent_x sim) (agent_o sim) (referee sim) g (rng s)
       = Some (j, g', rng s')
    /\ heap s' !! board sim = Some g' /\ wf_grid g' = true.
Proof.
  intros Hb Hwf.
  destruct (Simulator_step_run sim g s Hb Hwf)
    as (xm & sx & om & so & g1 & g2 & s2 & Hx & Ho & _ & _ & Hpres & Hg1 & Hg2 & Hwf2
        & Hb2 & Hp2 & Hstep).
  destruct (Agent_step_fun_ok (agent_x sim) _ g s Hb Hwf) as (xm' & sx' & Hx' & Hfx & Hpx).
  rewrite Hx in Hx'. injection Hx' as <- <-.
  pose proof (Hpx _ _ Hb) as Hbx.
  destruct (Agent_step_fun_ok (agent_o sim) _ g sx Hbx Hwf) as (om' & so' & Ho' & Hfo & Hpo).
  rewrite Ho in Ho'. injection Ho' as <- <-.
  pose proof (Hpo _ _ Hbx) as Hbo.
  unfold sim_step_fun. rewrite Hfx. simpl. rewrite Hfo. simpl.
  rewrite Hstep.
  destruct (Referee_step (referee sim) g xm om) as [j|] eqn:Hj.
  - exists (Some j), g, so. repeat split; auto.
  - rewrite Hg1. simpl. rewrite Hg2. simpl.
    exists None, g2, s2. split; [reflexivity|].
    assert (Hrng : rng s2 = rng so).
    { unfold Simulator_step in Hstep.
      rewrite bind_run, Hx, bind_run, Ho, bind_run, (deref_run _ _ _ Hbo), Hj in Hstep.
      rewrite bind_run in Hstep. simpl for_each in Hstep. rewrite bind_run in Hstep.
      destruct (place_proposed (board sim) xm so) as [[[] s3]|] eqn:E1; [|discriminate].
      rewrite bind_run in Hstep.
      destruct (place_proposed (board sim) om s3) as [[[] s4]|] eqn:E2; [|discriminate].
      simpl in Hstep. injection Hstep as <-.
      rewrite (place_proposed_rng _ _ _ _ E2). apply (place_proposed_rng _ _ _ _ E1). }
    rewrite Hrng. auto.
Qed.

(** A run of the store version is the run of the functional reading: the
    same Outcome, the same board at the end, the same draws used; and if
    the functional run is cut off by the step bound, so is the other. *)
Lemma Simulator_run_fun_ok (steps : nat) :
  forall (sim : Simulator) (g : Grid) (s : State),
  heap s !! board sim = Some g -> wf_grid g = true ->
  match sim_run_fun steps (agent_x sim) (agent_o sim) (referee sim) g (rng s) with
  | Some (j, g', rs') =>
      exists s', Simulator_run steps sim s = Some (j, s')
                 /\ heap s' !! board sim = Some g' /\ rng s' = rs'
  | None => Simulator_run steps sim s = None
  end.
Proof.
  induction steps as [|n IH]; intros sim g s Hb Hwf; simpl; [reflexivity|].
  destruct (Simulator_step_fun_ok sim g s Hb Hwf) as (j & g' & s' & Hstep & Hfun & Hb' & Hwf').
  rewrite Hfun. simpl. rewrite bind_run, Hstep.
  destruct j as [j|].
  - exists s'. auto.
  - apply (IH sim g' s' Hb' Hwf').
Qed.

Lemma game_fun_ok (steps : nat) (ax ao : Agent) (r : Referee) (s : State) :
  match game_fun steps ax ao r (rng s) with
  | Some j => exists s', game steps ax ao r s = Some (j, s')
  | None => game steps ax ao r s = None
  end.
Proof.
  unfold game, game_fun. rewrite bind_run, Simulator_init_run.
  set (sim := mkSimulator _ _ _ _). set (s0 := mkState _ _).
  assert (Hb : heap s0 !! board sim = Some empty_grid).
  { simpl. apply list_lookup_middle. reflexivity. }
  pose proof (Simulator_run_fun_ok steps sim empty_grid s0 Hb empty_grid_wf) as H.
  simpl in H. change (rng s0) with (rng s) in H.
  destruct (sim_run_fun steps ax ao r empty_grid (rng s)) as [[[j g'] rs']|]; simpl.
  - destruct H as (s' & Hrun & _). eauto.
  - exact H.
Qed.

(** ** Whole games *)

(** X1.  The Outcome of a game is a function of the agents, the referee
    and the random draws: two stores with the same draws to come give the
    same Outcome (or both none within the step bound), whatever boards
    they already hold. *)
Theorem game_depends_on_draws (steps : nat) (ax ao : Agent) (r : Referee)
    (s1 s2 : State) :
  rng s1 = rng s2 ->
  fst <$> game steps ax ao r s1 = fst <$> game steps ax ao r s2.
Proof.
  intros Hrng.
  pose proof (game_fun_ok steps ax ao r s1) as H1.
  pose proof (game_fun_ok steps ax ao r s2) as H2.
  rewrite <- Hrng in H2.
  destruct (game_fun steps ax ao r (rng s1)) as [j|].
  - destruct H1 as (s1' & ->). destruct H2 as (s2' & ->). reflexivity.
  - now rewrite H1, H2.
Qed.

Lemma game_depends_on_draws_witness :
  fst <$> game 10 (RandomAgent X) (OneStepAheadAgent O) RegularReferee
            (one_board missed_win_grid (fun n => n))
  = fst <$> game 10 (RandomAgent X) (OneStepAheadAgent O) RegularReferee
              (mkState [] (fun n => n)).
Proof.
  apply (game_depends_on_draws 10 (RandomAgent X) (OneStepAheadAgent O) RegularReferee
           (one_board missed_win_grid (fun n => n)) (mkState [] (fun n => n))).
  reflexivity.
Defined.

(** *** A minimax agent can lose *)

Lemma losing_game_fun :
  game_fun 10 (MinimaxAgent X) (RandomAgent O) RegularReferee losing_draws = Some O_WINS.
Proof. vm_cast_no_check (eq_refl (Some O_WINS)). Qed.

(** X2.  There are random draws for which [MinimaxAgent(X)] loses to
    [RandomAgent(O)] under the strict referee: with [losing_draws] the
    game runs X (0,0), O (0,1), X (1,0), O (0,2), X (1,1), O (1,2), then X
    moves to (2,1) although (2,0) and (2,2) win, and O completes the right
    column. *)
Theorem minimax_can_lose (boards : list Grid) :
  exists s',
    game 10 (MinimaxAgent X) (RandomAgent O) RegularReferee (mkState boards losing_draws)
    = Some (O_WINS, s').
Proof.
  pose proof (game_fun_ok 10 (MinimaxAgent X) (RandomAgent O) RegularReferee
                (mkState boards losing_draws)) as H.
  simpl rng in H. rewrite losing_game_fun in H. exact H.
Qed.

(** *** Lawless agents under the permissive referee *)

Lemma NoRulesAgent_fun_odd (rs : nat -> nat) :
  rs 0 mod 2 = 1 -> NoRulesAgent_fun rs = Some (None, shift rs).
Proof.
  intros H. unfold NoRulesAgent_fun, choice_fun. simpl length. rewrite H. reflexivity.
Qed.

Lemma lawless_run_fun (n : nat) :
  forall (p q : mark) (rs : nat -> nat),
  (forall k, rs k mod 2 = 1) ->
  sim_run_fun n (NoRulesAgent p) (NoRulesAgent q) NoPenaltiesReferee empty_grid rs = None.
Proof.
  induction n as [|n IH]; intros p q rs Hodd; [reflexivity|].
  simpl. unfold sim_step_fun. simpl agent_fun.
  rewrite (NoRulesAgent_fun_odd rs (Hodd 0)). simpl.
  rewrite (NoRulesAgent_fun_odd (shift rs) (Hodd 1)). simpl.
  apply IH. intros k. apply (Hodd (S (S k))).
Qed.

(** X3.  Under [NoPenaltiesReferee], two [NoRulesAgent]s whose every coin
    flip says "no turn" (every draw odd) never end the game: however many
    steps the loop is given, [run] has not returned. *)
Theorem lawless_game_never_ends (rs : nat -> nat) (steps : nat) (p q : mark)
    (boards : list Grid) :
  (forall k, rs k mod 2 = 1) ->
  game steps (NoRulesAgent p) (NoRulesAgent q) NoPenaltiesReferee (mkState boards rs) = None.
Proof.
  intros Hodd.
  pose proof (game_fun_ok steps (NoRulesAgent p) (NoRulesAgent q) NoPenaltiesReferee
                (mkState boards rs)) as H.
  unfold game_fun in H. simpl rng in H.
  rewrite (lawless_run_fun steps p q rs Hodd) in H. exact H.
Qed.

Lemma lawless_game_never_ends_witness :
  game 50 (NoRulesAgent X) (NoRulesAgent O) NoPenaltiesReferee (mkState [] (fun _ => 1)) = None.
Proof.
  apply (lawless_game_never_ends (fun _ => 1) 50 X O []). intros k. reflexivity.
Defined.

(** *** Rule-respecting agents are never penalised *)

Lemma option_Judgement_eqb_eq (a b : option Judgement) :
  option_Judgement_eqb a b = true -> a = b.
Proof. destruct a as [[]|], b as [[]|]; simpl; congruence. Qed.

Lemma fair_referees_agree (g : Grid) (xm om : option Move) :
  wf_grid g = true ->
  In xm (fair_options X g) -> In om (fair_options O g) ->
  RegularReferee_step g xm om = NoPenaltiesReferee_step g xm om.
Proof.
  intros Hwf Hx Ho. apply option_Judgement_eqb_eq.
  pose proof (forall_grids
    (fun g => forallb (fun xm => forallb (fun om =>
       option_Judgement_eqb (RegularReferee_step g xm om) (NoPenaltiesReferee_step g xm om))
       (fair_options O g)) (fair_options X g))) as H.
  specialize (H ltac:(vm_compute; reflexivity) g Hwf). cbv beta in H.
  rewrite forallb_forall in H. specialize (H xm Hx).
  rewrite forallb_forall in H. apply (H om Ho).
Qed.

Lemma proposes_fair (a : Agent) (g : Grid) (mv : option Move) :
  wf_grid g = true -> rule_respecting a = true -> proposes a g mv ->
  In mv (fair_options (agent_mark a) g).
Proof.
  intros Hwf Hrr Hprop.
  apply (proposes_rule_respecting a g mv Hwf Hrr) in Hprop.
  unfold fair_options. destruct (declines _ _ _).
  - subst mv. now left.
  - destruct Hprop as (c & Hc & ->).
    apply (in_map (fun c => Some (mkMove c (agent_mark a)))), Hc.
Qed.

Lemma agent_fun_proposes (a : Agent) (g : Grid) (rs : nat -> nat) :
  wf_grid g = true ->
  exists mv rs', agent_fun a g rs = Some (mv, rs') /\ proposes a g mv.
Proof.
  intros Hwf.
  destruct (Agent_step_fun_ok a 0 g (one_board g rs) eq_refl Hwf) as (mv & s' & Hrun & Hfun & _).
  destruct (Agent_step_run a 0 g (one_board g rs) eq_refl Hwf) as (mv' & s'' & Hrun' & _ & Hprop).
  rewrite Hrun in Hrun'. injection Hrun' as <- <-.
  exists mv, (rng s'). split; [exact Hfun | exact Hprop].
Qed.

Section FairGame.

Variables ax ao : Agent.
Hypothesis ax_fair : rule_respecting ax = true.
Hypothesis ao_fair : rule_respecting ao = true.
Hypothesis ax_mark : agent_mark ax = X.
Hypothesis ao_mark : agent_mark ao = O.

Lemma fair_step_fun (g : Grid) (rs : nat -> nat) :
  wf_grid g = true ->
  sim_step_fun ax ao RegularReferee g rs = sim_step_fun ax ao NoPenaltiesReferee g rs.
Proof.
  intros Hwf. unfold sim_step_fun.
  destruct (agent_fun_proposes ax g rs Hwf) as (xm & rs1 & -> & Hpx). simpl.
  destruct (agent_fun_proposes ao g rs1 Hwf) as (om & rs2 & -> & Hpo). simpl.
  apply (proposes_fair ax g xm Hwf ax_fair) in Hpx. rewrite ax_mark in Hpx.
  apply (proposes_fair ao g om Hwf ao_fair) in Hpo. rewrite ao_mark in Hpo.
  now rewrite (fair_referees_agree g xm om Hwf Hpx Hpo).
Qed.

Lemma sim_step_fun_wf (r : Referee) (g g' : Grid) (rs rs' : nat -> nat)
      (j : option Judgement) :
  wf_grid g = true -> sim_step_fun ax ao r g rs = Some (j, g', rs') -> wf_grid g' = true.
Proof.
  intros Hwf. unfold sim_step_fun.
  destruct (agent_fun ax g rs) as [[xm rs1]|]; [|discriminate]. simpl.
  destruct (agent_fun ao g rs1) as [[om rs2]|]; [|discriminate]. simpl.
  destruct (Referee_step r g xm om).
  - now intros [= _ <- _].
  - destruct (apply_move g xm) as [g1|] eqn:E1; [|discriminate]. simpl.
    destruct (apply_move g1 om) as [g2|] eqn:E2; [|discriminate]. simpl.
    intros [= _ <- _].
    eapply apply_move_wf; [|exact E2]. eapply apply_move_wf; [exact Hwf | exact E1].
Qed.

Lemma fair_run_fun (n : nat) :
  forall (g : Grid) (rs : nat -> nat),
  wf_grid g = true ->
  sim_run_fun n ax ao RegularReferee g rs = sim_run_fun n ax ao NoPenaltiesReferee g rs.
Proof.
  induction n as [|n IH]; intros g rs Hwf; [reflexivity|]. simpl.
  rewrite <- (fair_step_fun g rs Hwf).
  destruct (sim_step_fun ax ao RegularReferee g rs) as [[[j g'] rs']|] eqn:E; [|reflexivity].
  simpl. destruct j as [j|]; [reflexivity|].
  apply IH. eapply sim_step_fun_wf; eassumption.
Qed.

End FairGame.

Lemma permissive_run_no_penalty (n : nat) (ax ao : Agent) :
  forall (g g' : Grid) (rs rs' : nat -> nat) (j : Judgement),
  sim_run_fun n ax ao NoPenaltiesReferee g rs = Some (j, g', rs') -> is_penalty j = false.
Proof.
  induction n as [|n IH]; intros g g' rs rs' j; simpl; [discriminate|].
  unfold sim_step_fun at 1.
  destruct (agent_fun ax g rs) as [[xm rs1]|]; [|discriminate]. simpl.
  destruct (agent_fun ao g rs1) as [[om rs2]|]; [|discriminate]. simpl.
  destruct (NoPenaltiesReferee_step g xm om) as [j0|] eqn:Hj; simpl.
  - intros [= <- _ _]. unfold NoPenaltiesReferee_step in Hj.
    destruct (mark_eqb (check_win g) X); [now injection Hj as <-|].
    destruct (mark_eqb (check_win g) O); [now injection Hj as <-|].
    destruct (all_not_empty g && _); [now injection Hj as <-|discriminate].
  - destruct (apply_move g xm) as [g1|]; [|discriminate]. simpl.
    destruct (apply_move g1 om) as [g2|]; [|discriminate]. simpl.
    apply IH.
Qed.

Lemma fair_game_fun (ax ao : Agent) (rs : nat -> nat) :
  rule_respecting ax = true -> rule_respecting ao = true ->
  agent_mark ax = X -> agent_mark ao = O ->
  exists j,
    game_fun 10 ax ao RegularReferee rs = Some j
    /\ game_fun 10 ax ao NoPenaltiesReferee rs = Some j
    /\ is_penalty j = false.
Proof.
  intros Hfx Hfo Hmx Hmo.
  pose proof (game_fun_ok 10 ax ao RegularReferee (mkState [] rs)) as H1.
  unfold game_fun in *. simpl rng in H1.
  rewrite <- (fair_run_fun ax ao Hfx Hfo Hmx Hmo 10 empty_grid rs empty_grid_wf).
  assert (Hends : exists j s', game 10 ax ao RegularReferee (mkState [] rs) = Some (j, s')).
  { unfold game. rewrite bind_run, Simulator_init_run.
    apply (strict_run_terminates 10 _ empty_grid); try reflexivity. simpl. lia. }
  destruct (sim_run_fun 10 ax ao RegularReferee empty_grid rs) as [[[j g'] rs']|] eqn:E.
  - exists j. split; [reflexivity|]. split; [reflexivity|].
    rewrite (fair_run_fun ax ao Hfx Hfo Hmx Hmo 10 empty_grid rs empty_grid_wf) in E.
    apply (permissive_run_no_penalty 10 ax ao _ _ _ _ _ E).
  - simpl in H1. destruct Hends as (j & s' & Hrun). congruence.
Qed.

(** X4.  A game between two rule-respecting agents, the first built with
    mark X and the second with mark O, ends within ten steps under the
    strict referee, never with a penalty; and the permissive referee gives
    the same game the same Outcome. *)
Theorem fair_game_no_penalty (ax ao : Agent) (s : State) :
  rule_respecting ax = true -> rule_respecting ao = true ->
  agent_mark ax = X -> agent_mark ao = O ->
  exists j s1 s2,
    game 10 ax ao RegularReferee s = Some (j, s1)
    /\ game 10 ax ao NoPenaltiesReferee s = Some (j, s2)
    /\ is_penalty j = false.
Proof.
  intros Hfx Hfo Hmx Hmo.
  destruct (fair_game_fun ax ao (rng s) Hfx Hfo Hmx Hmo) as (j & H1 & H2 & Hj).
  pose proof (game_fun_ok 10 ax ao RegularReferee s) as G1.
  pose proof (game_fun_ok 10 ax ao NoPenaltiesReferee s) as G2.
  rewrite H1 in G1. rewrite H2 in G2.
  destruct G1 as (s1 & Hrun1). destruct G2 as (s2 & Hrun2).
  exists j, s1, s2. auto.
Qed.

Lemma fair_game_no_penalty_witness :
  exists j s1 s2,
    game 10 (OneStepAheadAgent X) (RandomAgent O) RegularReferee (mkState [] (fun n => n))
    = Some (j, s1)
    /\ game 10 (OneStepAheadAgent X) (RandomAgent O) NoPenaltiesReferee
         (mkState [] (fun n => n)) = Some (j, s2)
    /\ is_penalty j = false.
Proof.
  apply (fair_game_no_penalty (OneStepAheadAgent X) (RandomAgent O) (mkState [] (fun n => n)));
    reflexivity.
Defined.

(** ** Boards *)

(** X5.  [Board.copy] returns a new board, different from the one copied
    and from every board that existed, with the same contents; it draws
    nothing and changes no existing board; and a later [place] on the
    copy leaves the original as it was. *)
Theorem Board_copy_independent (b : Board) (g : Grid) (s : State) :
  heap s !! b = Some g -> wf_grid g = true ->
  exists nb s',
    Board_copy b s = Some (nb, s')
    /\ heap s !! nb = None
    /\ heap s' !! nb = Some g
    /\ (forall b' g', heap s !! b' = Some g' -> heap s' !! b' = Some g')
    /\ rng s' = rng s
    /\ (forall c p s'', Board_place nb c p s' = Some (tt, s'') -> heap s'' !! b = Some g).
Proof.
  intros Hb Hwf. rewrite (Board_copy_run b g s Hb Hwf).
  eexists _, _. split; [reflexivity|]. simpl.
  assert (Hlt : b < length (heap s)) by (eapply lookup_lt_Some, Hb).
  split; [apply lookup_ge_None_2; lia|].
  split; [apply list_lookup_middle; reflexivity|].
  split; [intros b' g' Hb'; rewrite lookup_app_l; [exact Hb' | eapply lookup_lt_Some, Hb']|].
  split; [reflexivity|].
  intros c p s''. unfold Board_place. simpl.
  destruct ((heap s ++ [g]) !! length (heap s)) as [g0|]; [|discriminate].
  destruct (grid_place g0 c p) as [g1|]; [|discriminate].
  intros [= <-]. simpl.
  rewrite list_lookup_insert_ne by lia.
  rewrite lookup_app_l; [exact Hb | exact Hlt].
Qed.

Lemma Board_copy_independent_witness :
  exists nb s',
    Board_copy 0 (one_board unreverted_grid (fun _ => 0)) = Some (nb, s')
    /\ heap (one_board unreverted_grid (fun _ => 0)) !! nb = None
    /\ heap s' !! nb = Some unreverted_grid
    /\ (forall b' g', heap (one_board unreverted_grid (fun _ => 0)) !! b' = Some g' ->
                      heap s' !! b' = Some g')
    /\ rng s' = rng (one_board unreverted_grid (fun _ => 0))
    /\ (forall c p s'', Board_place nb c p s' = Some (tt, s'') ->
                        heap s'' !! 0 = Some unreverted_grid).
Proof.
  apply (Board_copy_independent 0 unreverted_grid (one_board unreverted_grid (fun _ => 0)));
    reflexivity.
Defined.

Lemma grid_place_out_of_range (g : Grid) (c : Coordinate) (p : mark) :
  wf_grid g = true -> in_range c = false -> grid_place g c p = None.
Proof.
  intros Hwf. grid_cells g Hwf.
  destruct c as [[|[|[|r]]] [|[|[|k]]]]; cbn; intros H; try discriminate H; reflexivity.
Qed.

(** X6.  [Board.place] on a 3x3 board: with row and column in 0..2 it
    returns, the cell then reads as the mark placed, every other cell
    reads as before and no other board changes; with a row or column of 3
    or more it does not return (IndexError). *)
Theorem Board_place_read (b : Board) (g : Grid) (c : Coordinate) (p : mark) (s : State) :
  heap s !! b = Some g -> wf_grid g = true ->
  if in_range c then
    exists g' s',
      Board_place b c p s = Some (tt, s')
      /\ heap s' !! b = Some g'
      /\ wf_grid g' = true
      /\ cell g' c = p
      /\ (forall c', c' <> c -> cell g' c' = cell g c')
      /\ (forall b' g0, b' <> b -> heap s !! b' = Some g0 -> heap s' !! b' = Some g0)
  else Board_place b c p s = None.
Proof.
  intros Hb Hwf. destruct (in_range c) eqn:Hr.
  - destruct (grid_place_wf g c p Hwf Hr) as (g' & Hpl & Hwf').
    exists g', (store_set s b g').
    split; [apply (Board_place_run _ _ _ _ _ _ Hb Hpl)|].
    split; [apply (store_set_lookup s b g g' Hb)|].
    split; [exact Hwf'|].
    split.
    { rewrite (grid_place_cell g g' c c p Hwf Hpl).
      assert (E : coord_eqb c c = true) by now apply coord_eqb_eq. now rewrite E. }
    split.
    { intros c' Hne. rewrite (grid_place_cell g g' c c' p Hwf Hpl).
      now rewrite (coord_eqb_neq c' c Hne). }
    apply store_set_preserves_but.
  - unfold Board_place. rewrite Hb, (grid_place_out_of_range g c p Hwf Hr). reflexivity.
Qed.

Lemma Board_place_read_witness :
  exists g' s',
    Board_place 0 (mkCoordinate 1 2) X (one_board unreverted_grid (fun _ => 0)) = Some (tt, s')
    /\ heap s' !! 0 = Some g'
    /\ wf_grid g' = true
    /\ cell g' (mkCoordinate 1 2) = X
    /\ (forall c', c' <> mkCoordinate 1 2 -> cell g' c' = cell unreverted_grid c')
    /\ (forall b' g0, b' <> 0 -> heap (one_board unreverted_grid (fun _ => 0)) !! b' = Some g0 ->
                      heap s' !! b' = Some g0).
Proof.
  apply (Board_place_read 0 unreverted_grid (mkCoordinate 1 2) X
           (one_board unreverted_grid (fun _ => 0))); reflexivity.
Defined.

(** ** Free spots and the histogram *)

(** X7.  [free_spots] lists, without repetition and in row-major order,
    exactly the cells of the 3x3 grid that read Empty. *)
Theorem free_spots_exact (g : Grid) :
  free_spots g = List.filter (fun c => mark_eqb (cell g c) EMPTY) all_coords
  /\ List.NoDup (free_spots g)
  /\ (forall c, In c (free_spots g) <-> in_range c = true /\ cell g c = EMPTY).
Proof.
  split; [apply free_spots_filter|]. split; [apply free_spots_NoDup|].
  intros c. apply free_spots_In.
Qed.

(** X8.  On a 3x3 board the three counts of [board_histogram] add up to
    nine, and the count of Empty is the number of free spots. *)
Theorem board_histogram_totals (g : Grid) :
  wf_grid g = true ->
  board_histogram g X + board_histogram g O + board_histogram g EMPTY = 9
  /\ board_histogram g EMPTY = length (free_spots g).
Proof.
  intros Hwf. split; [|apply histogram_empty_count, Hwf].
  apply Nat.eqb_eq.
  apply (forall_grids (fun g =>
           Nat.eqb (board_histogram g X + board_histogram g O + board_histogram g EMPTY) 9));
    [vm_compute; reflexivity | exact Hwf].
Qed.

Lemma board_histogram_totals_witness :
  board_histogram missed_win_grid X + board_histogram missed_win_grid O
    + board_histogram missed_win_grid EMPTY = 9
  /\ board_histogram missed_win_grid EMPTY = length (free_spots missed_win_grid).
Proof. apply (board_histogram_totals missed_win_grid). reflexivity. Defined.

(** ** The win checker and the referees' verdicts *)

(** X9.  [check_win] never names a mark without a line of it: when it
    returns X or O, some row, column or diagonal holds three of that
    mark. *)
Theorem check_win_sound (g : Grid) :
  wf_grid g = true -> check_win g <> EMPTY ->
  existsb (completed g (check_win g)) lines = true.
Proof.
  intros Hwf Hne.
  pose proof (forall_grids
    (fun g => implb (negb (mark_eqb (check_win g) EMPTY))
                    (existsb (completed g (check_win g)) lines))) as H.
  specialize (H ltac:(vm_compute; reflexivity) g Hwf). cbv beta in H.
  apply mark_eqb_neq in Hne. rewrite Hne in H. exact H.
Qed.

Lemma check_win_sound_witness :
  existsb (completed [[X; X; X]; [O; O; EMPTY]; [EMPTY; EMPTY; EMPTY]]
             (check_win [[X; X; X]; [O; O; EMPTY]; [EMPTY; EMPTY; EMPTY]])) lines = true.
Proof.
  apply (check_win_sound [[X; X; X]; [O; O; EMPTY]; [EMPTY; EMPTY; EMPTY]]);
    [reflexivity | discriminate].
Defined.

(** X10.  [check_win] either names the mark of the first completed line
    in scan order, or returns EMPTY; and it returns EMPTY in the presence
    of a completed line only on a board that has a line of three Empty
    cells. *)
Theorem check_win_first_or_nothing (g : Grid) :
  wf_grid g = true ->
  check_win g = winner g
  \/ (check_win g = EMPTY /\ existsb (empty_line g) lines = true).
Proof.
  intros Hwf.
  pose proof (forall_grids
    (fun g => mark_eqb (check_win g) (winner g)
              || (mark_eqb (check_win g) EMPTY && existsb (empty_line g) lines))) as H.
  specialize (H ltac:(vm_compute; reflexivity) g Hwf). cbv beta in H.
  apply orb_prop in H as [H|H].
  - left. now apply mark_eqb_eq.
  - right. apply andb_prop in H as [H1 H2]. split; [now apply mark_eqb_eq | exact H2].
Qed.

Lemma check_win_first_or_nothing_witness :
  check_win missed_win_grid = winner missed_win_grid
  \/ (check_win missed_win_grid = EMPTY
      /\ existsb (empty_line missed_win_grid) lines = true).
Proof. apply (check_win_first_or_nothing missed_win_grid). reflexivity. Defined.

Lemma Referee_step_verdict (r : Referee) (g : Grid) (xm om : option Move) (j : Judgement) :
  Referee_step r g xm om = Some j ->
  match j with
  | X_WINS => check_win g = X
  | O_WINS => check_win g = O
  | DRAW => all_not_empty g = true /\ check_win g = EMPTY
  | _ => True
  end.
Proof.
  destruct r; simpl; unfold RegularReferee_step, NoPenaltiesReferee_step;
    repeat match goal with
    | |- context [if submitted ?a ?f then _ else _] => destruct (submitted a f)
    | |- context [if is_none ?a && ?b then _ else _] => destruct (is_none a && b)
    end;
    destruct (mark_eqb_spec (check_win g) X);
    destruct (mark_eqb_spec (check_win g) O);
    destruct (all_not_empty g); destruct (mark_eqb_spec (check_win g) EMPTY); simpl;
    intros H; try discriminate H; injection H as <-; auto.
Qed.

(** X11.  The verdicts of both referees are sound: X_WINS (O_WINS) is
    returned only on a board with a line of three X (three O), and DRAW
    only on a full board on which no line is completed. *)
Theorem referee_verdict_sound (r : Referee) (g : Grid) (xm om : option Move)
    (j : Judgement) :
  wf_grid g = true -> Referee_step r g xm om = Some j ->
  match j with
  | X_WINS => existsb (completed g X) lines = true
  | O_WINS => existsb (completed g O) lines = true
  | DRAW => isFull g = true
            /\ existsb (completed g X) lines = false
            /\ existsb (completed g O) lines = false
  | _ => True
  end.
Proof.
  intros Hwf Hj. apply Referee_step_verdict in Hj.
  destruct j; auto.
  - pose proof (check_win_sound g Hwf) as H. rewrite Hj in H. apply H. discriminate.
  - pose proof (check_win_sound g Hwf) as H. rewrite Hj in H. apply H. discriminate.
  - destruct Hj as [Hfull Hw]. rewrite (all_not_empty_isFull g Hwf) in Hfull.
    split; [exact Hfull|].
    pose proof (forall_grids
      (fun g => implb (isFull g && mark_eqb (check_win g) EMPTY)
                  (negb (existsb (completed g X) lines)
                   && negb (existsb (completed g O) lines)))) as H.
    specialize (H ltac:(vm_compute; reflexivity) g Hwf). cbv beta in H.
    rewrite Hfull, Hw in H. simpl in H. apply andb_prop in H as [H1 H2].
    split; now apply negb_true_iff.
Qed.

Lemma referee_verdict_sound_witness :
  existsb (completed [[X; X; X]; [O; O; EMPTY]; [EMPTY; EMPTY; EMPTY]] X) lines = true.
Proof.
  apply (referee_verdict_sound NoPenaltiesReferee
           [[X; X; X]; [O; O; EMPTY]; [EMPTY; EMPTY; EMPTY]] None None X_WINS);
    reflexivity.
Defined.

(** ** The two referees *)

(** X12.  The strict referee lets the game go on exactly when nothing is
    won, the board is not full, and exactly one move was submitted: by the
    player whose turn it is, with that player's mark, on a cell that reads
    Empty. *)
Theorem strict_referee_continues_iff (g : Grid) (xm om : option Move) :
  RegularReferee_step g xm om = None <->
  check_win g = EMPTY /\ all_not_empty g = false
  /\ exists m, ((xm = Some m /\ om = None /\ player m = X /\ whose_turn g = X)
                \/ (xm = None /\ om = Some m /\ player m = O /\ whose_turn g = O))
               /\ cell g (coordinate m) = EMPTY.
Proof.
  split.
  - unfold RegularReferee_step, submitted, is_none, move_cell, cell.
    pose proof (whose_turn_mark g) as Hturn.
    destruct xm as [mx|], om as [mo|];
      repeat match goal with
        | |- context [mark_eqb ?a ?b] => destruct (mark_eqb_spec a b)
        | |- context [all_not_empty g] => destruct (all_not_empty g)
        end; simpl; try discriminate; intros _.
    all: try (destruct Hturn; congruence).
    all: try (exfalso; destruct (check_win g); congruence).
    all: (split; [destruct (check_win g); congruence|]); (split; [reflexivity|]).
    all: match goal with m : Move |- _ => exists m end.
    all: split; [|assumption].
    all: first [ left; repeat split; first [assumption | destruct Hturn; congruence]
               | right; repeat split; first [assumption | destruct Hturn; congruence] ].
  - intros (Hw & Hfull & m & Hwho & Hcell).
    unfold RegularReferee_step, submitted, is_none, move_cell.
    unfold cell in Hcell. rewrite Hw, Hfull.
    destruct Hwho as [(-> & -> & Hm & Ht)|(-> & -> & Hm & Ht)];
      rewrite Hcell, Hm, Ht; reflexivity.
Qed.

(** X13.  The two referees agree on how a game ends: an Outcome of the
    strict referee that is not a penalty is the Outcome of the permissive
    one, and an Outcome of the permissive referee is that of the strict one
    unless the strict one penalises. *)
Theorem referees_agree (g : Grid) (xm om : option Move) :
  (forall j, RegularReferee_step g xm om = Some j -> is_penalty j = false ->
             NoPenaltiesReferee_step g xm om = Some j)
  /\ (forall j, NoPenaltiesReferee_step g xm om = Some j ->
                exists j', RegularReferee_step g xm om = Some j'
                           /\ (j' = j \/ is_penalty j' = true)).
Proof.
  unfold RegularReferee_step, NoPenaltiesReferee_step. split; intros j.
  - repeat match goal with
      | |- context [if submitted ?a ?f then _ else _] => destruct (submitted a f)
      end;
      try (intros H1 H2; injection H1 as <-; discriminate H2).
    destruct (mark_eqb (check_win g) X); [now intros H _|].
    destruct (mark_eqb (check_win g) O); [now intros H _|].
    destruct (all_not_empty g && mark_eqb (check_win g) EMPTY); [now intros H _|].
    destruct (is_none xm && _); [intros H1 H2; injection H1 as <-; discriminate H2|].
    destruct (is_none om && _); [intros H1 H2; injection H1 as <-; discriminate H2|].
    discriminate.
  - intros Hj.
    repeat match goal with
      | |- context [if submitted ?a ?f then _ else _] =>
          destruct (submitted a f); [eexists; split; [reflexivity | now right]|]
      end.
    destruct (mark_eqb (check_win g) X); [eexists; split; [reflexivity | left; congruence]|].
    destruct (mark_eqb (check_win g) O); [eexists; split; [reflexivity | left; congruence]|].
    destruct (all_not_empty g && mark_eqb (check_win g) EMPTY);
      [eexists; split; [reflexivity | left; congruence]|].
    discriminate.
Qed.

Lemma referees_agree_witness :
  NoPenaltiesReferee_step [[X; X; X]; [O; O; EMPTY]; [EMPTY; EMPTY; EMPTY]] None None
  = Some X_WINS.
Proof.
  apply (referees_agree [[X; X; X]; [O; O; EMPTY]; [EMPTY; EMPTY; EMPTY]] None None);
    reflexivity.
Defined.

(** ** The agents' choices *)

Lemma choice_fun_index {A} (xs : list A) (x : A) (i : nat) (rs : nat -> nat) :
  xs !! i = Some x -> rs 0 = i -> choice_fun xs rs = Some (x, shift rs).
Proof.
  intros Hx Hrs. unfold choice_fun. rewrite Hrs.
  rewrite Nat.mod_small by (eapply lookup_lt_Some, Hx). now rewrite Hx.
Qed.

(** X14.  A [RandomAgent] that does not decline can move to every free
    spot: the free spot number [i] in row-major order is the move whenever
    the next draw is [i]; one draw is used and no board changes. *)
Theorem RandomAgent_reaches_every_free_spot (p : mark) (b : Board) (g : Grid)
    (s : State) (i : nat) (c : Coordinate) :
  heap s !! b = Some g -> wf_grid g = true ->
  declines p (board_histogram g) (check_win g) = false ->
  free_spots g !! i = Some c -> rng s 0 = i ->
  RandomAgent_step p b s = Some (Some (mkMove c p), advance s).
Proof.
  intros Hb Hwf Hd Hc Hi. unfold RandomAgent_step.
  rewrite bind_run, (read_histogram_run _ _ _ Hb).
  rewrite bind_run, (read_check_win_run _ _ _ Hb), Hd.
  rewrite bind_run, (read_free_spots_run _ _ _ Hb), random_move_ok.
  unfold random_move. rewrite (choice_fun_index _ _ _ _ Hc Hi). reflexivity.
Qed.

Lemma RandomAgent_reaches_every_free_spot_witness :
  RandomAgent_step O 0 (one_board missed_win_grid (fun _ => 2))
  = Some (Some (mkMove (mkCoordinate 0 2) O),
          advance (one_board missed_win_grid (fun _ => 2))).
Proof.
  apply (RandomAgent_reaches_every_free_spot O 0 missed_win_grid
           (one_board missed_win_grid (fun _ => 2)) 2 (mkCoordinate 0 2)); reflexivity.
Defined.

Lemma first_winning_inv (who : mark) (g : Grid) (c : Coordinate) :
  first_winning who g = Some c -> In c (free_spots g) /\ wins_at who g c = true.
Proof. unfold first_winning. apply find_some. Qed.

Lemma first_winning_none (who : mark) (g : Grid) :
  first_winning who g = None -> forall c, In c (free_spots g) -> wins_at who g c = false.
Proof. unfold first_winning. apply find_none. Qed.

(** X15.  A [OneStepAheadAgent] that does not decline moves, without
    drawing, to the first free spot where its own mark makes [check_win]
    report it; if there is none, to the first free spot where the
    opponent's mark would make [check_win] report the opponent; if there
    is none either, to the free spot selected by the next draw.  No board
    that existed before the call changes. *)
Theorem OneStepAheadAgent_wins_or_blocks (p : mark) (b : Board) (g : Grid) (s : State) :
  heap s !! b = Some g -> wf_grid g = true ->
  declines p (board_histogram g) (check_win g) = false ->
  exists c s',
    OneStepAheadAgent_step p b s = Some (Some (mkMove c p), s')
    /\ In c (free_spots g)
    /\ (forall b' g', heap s !! b' = Some g' -> heap s' !! b' = Some g')
    /\ match first_winning p g, first_winning (other_player p) g with
       | Some w, _ => c = w /\ wins_at p g c = true /\ rng s' = rng s
       | None, Some w => c = w /\ wins_at (other_player p) g c = true /\ rng s' = rng s
       | None, None =>
           free_spots g !! (rng s 0 mod length (free_spots g)) = Some c
           /\ rng s' = shift (rng s)
           /\ (forall c', In c' (free_spots g) ->
                 wins_at p g c' = false /\ wins_at (other_player p) g c' = false)
       end.
Proof.
  intros Hb Hwf Hd.
  destruct (Agent_step_fun_ok (OneStepAheadAgent p) b g s Hb Hwf)
    as (mv & s' & Hrun & Hfun & Hpres).
  simpl Agent_step in Hrun. unfold agent_fun in Hfun. rewrite Hd in Hfun.
  destruct (first_winning p g) as [w|] eqn:Hmine.
  { injection Hfun as <- Hrng. destruct (first_winning_inv _ _ _ Hmine) as [Hin Hw].
    exists w, s'. split; [exact Hrun|]. split; [exact Hin|]. split; [exact Hpres|].
    split; [reflexivity|]. split; [exact Hw | now rewrite Hrng]. }
  destruct (first_winning (other_player p) g) as [w|] eqn:Htheirs.
  { injection Hfun as <- Hrng. destruct (first_winning_inv _ _ _ Htheirs) as [Hin Hw].
    exists w, s'. split; [exact Hrun|]. split; [exact Hin|]. split; [exact Hpres|].
    split; [reflexivity|]. split; [exact Hw | now rewrite Hrng]. }
  unfold random_move, choice_fun in Hfun.
  destruct (free_spots g !! (rng s 0 mod length (free_spots g))) as [c|] eqn:Hc;
    [|discriminate].
  simpl in Hfun. injection Hfun as <- Hrng.
  exists c, s'. split; [exact Hrun|].
  split; [apply list_elem_of_In, list_elem_of_lookup; eauto|].
  split; [exact Hpres|]. split; [reflexivity|]. split; [now rewrite Hrng|].
  intros c' Hc'. split; [eapply first_winning_none | eapply first_winning_none]; eassumption.
Qed.

Lemma OneStepAheadAgent_wins_or_blocks_witness :
  exists c s',
    OneStepAheadAgent_step O 0 (one_board unreverted_grid_o (fun _ => 0))
    = Some (Some (mkMove c O), s')
    /\ In c (free_spots unreverted_grid_o)
    /\ (forall b' g', heap (one_board unreverted_grid_o (fun _ => 0)) !! b' = Some g' ->
                      heap s' !! b' = Some g')
    /\ match first_winning O unreverted_grid_o,
             first_winning (other_player O) unreverted_grid_o with
       | Some w, _ => c = w /\ wins_at O unreverted_grid_o c = true
                      /\ rng s' = rng (one_board unreverted_grid_o (fun _ => 0))
       | None, Some w => c = w /\ wins_at (other_player O) unreverted_grid_o c = true
                         /\ rng s' = rng (one_board unreverted_grid_o (fun _ => 0))
       | None, None =>
           free_spots unreverted_grid_o
             !! (rng (one_board unreverted_grid_o (fun _ => 0)) 0
                 mod length (free_spots unreverted_grid_o)) = Some c
           /\ rng s' = shift (rng (one_board unreverted_grid_o (fun _ => 0)))
           /\ (forall c', In c' (free_spots unreverted_grid_o) ->
                 wins_at O unreverted_grid_o c' = false
                 /\ wins_at (other_player O) unreverted_grid_o c' = false)
       end.
Proof.
  apply (OneStepAheadAgent_wins_or_blocks O 0 unreverted_grid_o
           (one_board unreverted_grid_o (fun _ => 0))); reflexivity.
Defined.

(** X16.  A [NoRulesAgent] looks neither at the board nor at its own
    mark: whatever these are, when the first draw is even it proposes the
    cell and the mark that the next three draws select, any of the nine
    cells with X or with O, and when the first draw is odd it proposes
    nothing. *)
Theorem NoRulesAgent_lawless (p : mark) (b : Board) (s : State) :
  NoRulesAgent_step p b s =
  if Nat.eqb (rng s 0 mod 2) 0
  then Some (Some (mkMove (mkCoordinate (rng s 1 mod 3) (rng s 2 mod 3))
                          (if Nat.eqb (rng s 3 mod 2) 0 then X else O)),
             advance (advance (advance (advance s))))
  else Some (None, advance s).
Proof.
  rewrite NoRulesAgent_fun_ok. unfold NoRulesAgent_fun, choice_fun.
  change (length [true; false]) with 2. change (length [0; 1; 2]) with 3.
  change (length [X; O]) with 2.
  pose proof (Nat.mod_upper_bound (rng s 0) 2 ltac:(lia)) as B0.
  pose proof (Nat.mod_upper_bound (rng s 1) 3 ltac:(lia)) as B1.
  pose proof (Nat.mod_upper_bound (rng s 2) 3 ltac:(lia)) as B2.
  pose proof (Nat.mod_upper_bound (rng s 3) 2 ltac:(lia)) as B3.
  destruct (rng s 0 mod 2) as [|[|k0]]; [| reflexivity | lia].
  with_strategy opaque [Nat.modulo] (simpl; unfold shift).
  destruct (rng s 1 mod 3) as [|[|[|k1]]]; [| | | lia];
    (with_strategy opaque [Nat.modulo] simpl);
    (destruct (rng s 2 mod 3) as [|[|[|k2]]]; [| | | lia]);
    (with_strategy opaque [Nat.modulo] simpl);
    (destruct (rng s 3 mod 2) as [|[|k3]]; [| | lia]); reflexivity.
Qed.

(** ** The scores of the minimax search *)

Lemma fold_max_upper (rest : list Z) :
  forall a x, In x (a :: rest) -> (x <= fold_left Z.max rest a)%Z.
Proof.
  induction rest as [|y rest IH]; intros a x Hx; simpl.
  - destruct Hx as [<-|[]]. lia.
  - assert (Hm : (Z.max a y <= fold_left Z.max rest (Z.max a y))%Z)
      by (apply IH; now left).
    destruct Hx as [<-|[<-|Hx]]; [lia | lia | apply IH; now right].
Qed.

Lemma max_list_upper (l : list Z) (m : Z) :
  max_list l = Some m -> forall x, In x l -> (x <= m)%Z.
Proof.
  destruct l as [|a rest]; [discriminate|]. simpl. intros [= <-].
  apply fold_max_upper.
Qed.

Lemma max_list_score (l : list Z) (m : Z) :
  Forall score l -> max_list l = Some m -> score m.
Proof.
  intros Hl Hm. apply max_list_In in Hm. rewrite List.Forall_forall in Hl. now apply Hl.
Qed.

Lemma pv_body_shape (search : Grid -> option Values) (p : mark) (st st' : Grid * Values)
    (move : Coordinate) :
  (forall ig vs, search ig = Some vs -> Forall score (map snd vs)) ->
  pv_body search p st move = Some st' ->
  exists v, snd st' = snd st ++ [(move, v)] /\ score v.
Proof.
  intros Hsearch. unfold pv_body.
  destruct (grid_place (fst st) move p) as [ig1|]; [|discriminate]. simpl.
  destruct (mark_eqb (check_win ig1) p).
  { intros [= <-]. exists 1%Z. split; [reflexivity | unfold score; lia]. }
  destruct (Nat.eqb (length (free_spots ig1)) 0).
  { intros [= <-]. exists 0%Z. split; [reflexivity | unfold score; lia]. }
  destruct (search ig1) as [theirs|] eqn:E; [|discriminate]. simpl.
  destruct (max_list (map snd theirs)) as [best|] eqn:Eb; [|discriminate]. simpl.
  destruct (grid_place ig1 move EMPTY); [|discriminate]. simpl.
  intros [= <-]. exists (best * -1)%Z. split; [reflexivity|].
  pose proof (max_list_score _ _ (Hsearch _ _ E) Eb) as Hs. unfold score in *. lia.
Qed.

Lemma pv_loop_score (search : Grid -> option Values) (p : mark) (moves : list Coordinate) :
  (forall ig vs, search ig = Some vs -> Forall score (map snd vs)) ->
  forall st st',
  Forall score (map snd (snd st)) ->
  pv_loop search p moves st = Some st' ->
  Forall score (map snd (snd st')).
Proof.
  intros Hsearch. induction moves as [|move rest IH]; intros st st' Hst; simpl.
  - now intros [= <-].
  - destruct (pv_body search p st move) as [st1|] eqn:E; [|discriminate]. simpl.
    destruct (pv_body_shape search p st st1 move Hsearch E) as (v & Hv & Hs).
    apply IH. rewrite Hv, map_app, Forall_app. split; [exact Hst|].
    constructor; [exact Hs | constructor].
Qed.

Lemma pv_score (depth : nat) :
  forall g p vs, pv depth g p = Some vs -> Forall score (map snd vs).
Proof.
  induction depth as [|d IH]; intros g p vs; simpl; [discriminate|].
  destruct (pv_loop _ p (free_spots g) (g, [])) as [st'|] eqn:E; [|discriminate].
  simpl. intros [= <-].
  apply (pv_loop_score (fun ig => pv d ig (other_player p)) p (free_spots g)
           (fun ig vs0 => IH ig (other_player p) vs0) (g, []) st');
    [constructor | exact E].
Qed.

(** X17.  On a 3x3 board and for the mark X or O, [position_values]
    returns one score for every free spot, in the order of [free_spots],
    each of them -1, 0 or 1; it draws nothing and changes no board that
    existed before the call. *)
Theorem position_values_scores (b : Board) (g : Grid) (p : mark) (s : State) :
  heap s !! b = Some g -> wf_grid g = true -> p <> EMPTY ->
  exists vs s',
    position_values b p s = Some (vs, s')
    /\ map fst vs = free_spots g
    /\ Forall score (map snd vs)
    /\ (forall b' g', heap s !! b' = Some g' -> heap s' !! b' = Some g')
    /\ rng s' = rng s.
Proof.
  intros Hb Hwf Hp.
  destruct (position_values_total b g p s Hb Hwf Hp) as (vs & s' & Hrun & Hpv & Hkeys & Hpres & Hrng).
  exists vs, s'. split; [exact Hrun|]. split; [exact Hkeys|].
  split; [apply (pv_score 10 g p vs Hpv)|]. split; [exact Hpres | exact Hrng].
Qed.

Lemma position_values_scores_witness :
  exists vs s',
    position_values 0 X (one_board unreverted_grid (fun _ => 0)) = Some (vs, s')
    /\ map fst vs = free_spots unreverted_grid
    /\ Forall score (map snd vs)
    /\ (forall b' g', heap (one_board unreverted_grid (fun _ => 0)) !! b' = Some g' ->
                      heap s' !! b' = Some g')
    /\ rng s' = rng (one_board unreverted_grid (fun _ => 0)).
Proof.
  apply (position_values_scores 0 unreverted_grid X (one_board unreverted_grid (fun _ => 0)));
    [reflexivity | reflexivity | discriminate].
Defined.

(** ** The best score of the search is the value of the position *)

Lemma score_opp (v : Z) : score v -> score (v * -1)%Z.
Proof. unfold score. lia. Qed.

Section PlacementValues.

Variable search : Grid -> option Z.
Variable g : Grid.
Variable p : mark.
Variable d : nat.

Hypothesis g_wf : wf_grid g = true.
Hypothesis p_mark : p <> EMPTY.
Hypothesis g_free : length (free_spots g) <= d.
Hypothesis search_total :
  forall ig, wf_grid ig = true -> length (free_spots ig) < d -> free_spots ig <> [] ->
    exists v, search ig = Some v /\ score v.

Lemma placement_value_total (c : Coordinate) :
  In c (free_spots g) -> exists v, placement_value search g p c = Some v /\ score v.
Proof.
  intros Hc. apply free_spots_In in Hc as [Hr Hcell].
  destruct (grid_place_wf g c p g_wf Hr) as (g1 & E1 & Hwf1).
  pose proof (free_spots_place _ _ _ _ g_wf Hcell p_mark E1) as Hcount.
  unfold placement_value. rewrite E1. simpl.
  destruct (mark_eqb (check_win g1) p); [exists 1%Z; split; [reflexivity | unfold score; lia]|].
  destruct (Nat.eqb (length (free_spots g1)) 0) eqn:Efull;
    [exists 0%Z; split; [reflexivity | unfold score; lia]|].
  apply Nat.eqb_neq in Efull.
  destruct (search_total g1 Hwf1 ltac:(lia)) as (v & -> & Hv).
  { intros Hnil. now rewrite Hnil in Efull. }
  exists (v * -1)%Z. split; [reflexivity | apply score_opp, Hv].
Qed.

Lemma placement_values_total (moves : list Coordinate) :
  (forall m, In m moves -> In m (free_spots g)) ->
  exists vs, placement_values search g p moves = Some vs
             /\ Forall score vs /\ length vs = length moves.
Proof.
  induction moves as [|c rest IH]; intros Hin; simpl.
  - exists []. auto.
  - destruct (placement_value_total c (Hin c (or_introl eq_refl))) as (v & -> & Hv).
    destruct (IH (fun m Hm => Hin m (or_intror Hm))) as (vs & -> & Hvs & Hlen).
    exists (v :: vs). simpl. auto.
Qed.

End PlacementValues.

Lemma best_value_total (depth : nat) :
  forall g p, wf_grid g = true -> p <> EMPTY ->
  length (free_spots g) < depth -> free_spots g <> [] ->
  exists v, best_value depth g p = Some v /\ score v.
Proof.
  induction depth as [|d IH]; intros g p Hwf Hp Hlen Hne; [lia|]. simpl.
  destruct (placement_values_total (fun g1 => best_value d g1 (other_player p)) g p d
              Hwf Hp ltac:(lia)) with (moves := free_spots g) as (vs & -> & Hvs & Hl).
  - intros ig Hwfi Hleni Hnei. apply IH; auto using other_player_not_empty.
  - auto.
  - simpl. destruct (max_list_is_Some vs) as (m & Hm).
    { intros ->. destruct (free_spots g); [congruence | discriminate]. }
    exists m. split; [exact Hm | eapply max_list_score; eassumption].
Qed.

Lemma pv_loop_extends (search : Grid -> option Values) (p : mark) (moves : list Coordinate) :
  forall st st', pv_loop search p moves st = Some st' ->
  exists more, snd st' = snd st ++ more.
Proof.
  induction moves as [|move rest IH]; intros st st'; simpl.
  - intros [= <-]. exists []. now rewrite app_nil_r.
  - destruct (pv_body search p st move) as [st1|] eqn:E; [|discriminate]. simpl.
    intros Hloop. destruct (IH _ _ Hloop) as (more & Hmore).
    assert (Hshape : exists v, snd st1 = snd st ++ [(move, v)]).
    { revert E. unfold pv_body.
      destruct (grid_place (fst st) move p) as [ig1|]; [|discriminate]. simpl.
      destruct (mark_eqb (check_win ig1) p); [intros [= <-]; eauto|].
      destruct (Nat.eqb (length (free_spots ig1)) 0); [intros [= <-]; eauto|].
      destruct (search ig1) as [theirs|]; [|discriminate]. simpl.
      destruct (max_list (map snd theirs)) as [best|]; [|discriminate]. simpl.
      destruct (grid_place ig1 move EMPTY); [|discriminate]. simpl.
      intros [= <-]. eauto. }
    destruct Hshape as (v & Hv). exists ((move, v) :: more).
    rewrite Hmore, Hv, <- app_assoc. reflexivity.
Qed.

Section BestValue.

Variable g : Grid.
Variable p : mark.
Variable d : nat.

Hypothesis g_wf : wf_grid g = true.
Hypothesis p_mark : p <> EMPTY.
Hypothesis g_free : length (free_spots g) <= d.

(** What the recursive calls return, one level down. *)
Hypothesis search_best :
  forall ig, wf_grid ig = true -> length (free_spots ig) < d -> free_spots ig <> [] ->
    exists vs v, pv d ig (other_player p) = Some vs
                 /\ max_list (map snd vs) = Some v
                 /\ best_value d ig (other_player p) = Some v
                 /\ score v.

Lemma search_best_total :
  forall ig, wf_grid ig = true -> length (free_spots ig) < d -> free_spots ig <> [] ->
    exists v, best_value d ig (other_player p) = Some v /\ score v.
Proof.
  intros ig H1 H2 H3. destruct (search_best ig H1 H2 H3) as (vs & v & _ & _ & Hv & Hs). eauto.
Qed.

Lemma loop_after_win (moves : list Coordinate) (ig : Grid) (values : Values)
    (refs : list Z) (st' : Grid * Values) :
  (forall m, In m moves -> In m (free_spots g)) ->
  In 1%Z (map snd values) -> In 1%Z refs -> first_winning p g <> None ->
  pv_loop (fun ig => pv d ig (other_player p)) p moves (ig, values) = Some st' ->
  exists refs',
    placement_values (fun g1 => best_value d g1 (other_player p)) g p moves = Some refs'
    /\ agree g p (map snd (snd st')) (refs ++ refs').
Proof.
  intros Hin Hv Hr Hw Hloop.
  destruct (placement_values_total _ g p d g_wf p_mark g_free search_best_total moves Hin)
    as (refs' & Hrefs & _).
  exists refs'. split; [exact Hrefs|]. right.
  destruct (pv_loop_extends _ _ _ _ _ Hloop) as (more & Hmore). simpl in Hmore.
  rewrite Hmore, map_app. split; [apply in_or_app; now left|].
  split; [apply in_or_app; now left | exact Hw].
Qed.

Lemma wins_at_first_winning (c : Coordinate) :
  In c (free_spots g) -> wins_at p g c = true -> first_winning p g <> None.
Proof.
  intros Hc Hw Hnone. unfold first_winning in Hnone.
  pose proof (find_none _ _ Hnone c Hc) as H. congruence.
Qed.

Lemma loop_best (moves : list Coordinate) :
  forall (values : Values) (refs : list Z) (st' : Grid * Values),
  List.NoDup moves ->
  (forall m, In m moves -> In m (free_spots g)) ->
  map snd values = refs ->
  pv_loop (fun ig => pv d ig (other_player p)) p moves (g, values) = Some st' ->
  exists refs',
    placement_values (fun g1 => best_value d g1 (other_player p)) g p moves = Some refs'
    /\ agree g p (map snd (snd st')) (refs ++ refs').
Proof.
  induction moves as [|m rest IH]; intros values refs st' Hnd Hin Hvals; simpl.
  - intros [= <-]. exists []. split; [reflexivity|]. left. simpl. now rewrite app_nil_r.
  - inversion Hnd as [|? ? Hnotin Hnd']; subst.
    pose proof (Hin m (or_introl eq_refl)) as Hm.
    pose proof Hm as Hm'. apply free_spots_In in Hm' as [Hr Hcell].
    destruct (grid_place_wf g m p g_wf Hr) as (g1 & E1 & Hwf1).
    pose proof (free_spots_place _ _ _ _ g_wf Hcell p_mark E1) as Hcount.
    assert (Hrest : forall m', In m' rest -> In m' (free_spots g))
      by (intros m' Hm'; apply Hin; now right).
    unfold pv_body at 1. unfold placement_value at 1. simpl fst; simpl snd.
    rewrite E1. simpl.
    destruct (mark_eqb (check_win g1) p) eqn:Ewin.
    { (* a winning placement: the mark stays on the copy *)
      intros Hloop.
      assert (Hw : first_winning p g <> None).
      { apply (wins_at_first_winning m Hm). unfold wins_at. now rewrite E1. }
      destruct (loop_after_win rest g1 (values ++ [(m, 1%Z)]) (map snd values ++ [1%Z]) st'
                  Hrest) as (refs' & Hrefs & Hagree); auto.
      { rewrite map_app. apply in_or_app. right. now left. }
      { apply in_or_app. right. now left. }
      exists (1%Z :: refs'). rewrite Hrefs. simpl. split; [reflexivity|].
      now rewrite <- app_assoc in Hagree. }
    destruct (Nat.eqb (length (free_spots g1)) 0) eqn:Efull.
    { (* the board is full: this was the last free spot *)
      apply Nat.eqb_eq in Efull.
      assert (rest = []) as ->.
      { destruct rest as [|m' rest']; [reflexivity|]. exfalso.
        assert (Hm' : In m' (free_spots g1)).
        { destruct (proj1 (free_spots_In g m') (Hrest m' (or_introl eq_refl))) as [Hr' Hc'].
          apply free_spots_In. split; [exact Hr'|].
          rewrite (grid_place_cell _ _ _ m' _ g_wf E1), coord_eqb_neq; [exact Hc'|].
          intros ->. apply Hnotin. now left. }
        destruct (free_spots g1); [destruct Hm' | discriminate]. }
      simpl. intros [= <-]. exists [0%Z]. split; [reflexivity|]. left.
      simpl. now rewrite map_app. }
    apply Nat.eqb_neq in Efull.
    destruct (search_best g1 Hwf1 ltac:(lia)) as (theirs & best & -> & Hbest & -> & _).
    { intros Hnil. now rewrite Hnil in Efull. }
    simpl. rewrite Hbest. simpl.
    rewrite (grid_place_undo _ _ _ _ g_wf Hcell E1). simpl.
    intros Hloop.
    destruct (IH (values ++ [(m, (best * -1)%Z)]) (map snd values ++ [(best * -1)%Z]) st'
                Hnd' Hrest) as (refs' & Hrefs & Hagree); auto.
    { now rewrite map_app. }
    exists ((best * -1)%Z :: refs'). rewrite Hrefs. simpl. split; [reflexivity|].
    now rewrite <- app_assoc in Hagree.
Qed.

End BestValue.

Lemma agree_max (g : Grid) (p : mark) (a b : list Z) (m : Z) :
  agree g p a b -> Forall score a -> Forall score b ->
  max_list a = Some m -> max_list b = Some m.
Proof.
  intros [->|(Ha & Hb & _)] Hsa Hsb Hm; [exact Hm|].
  assert (m = 1%Z) as ->.
  { pose proof (max_list_upper a m Hm 1%Z Ha).
    pose proof (max_list_score a m Hsa Hm) as Hs. unfold score in Hs. lia. }
  destruct (max_list_is_Some b) as (mb & Hmb); [intros ->; destruct Hb|].
  pose proof (max_list_upper b mb Hmb 1%Z Hb).
  pose proof (max_list_score b mb Hsb Hmb) as Hs. unfold score in Hs.
  rewrite Hmb. f_equal. lia.
Qed.

(** The functional reading of the search finds the value of the position,
    and scores every free spot truly when no placement wins at once. *)
Lemma pv_best (depth : nat) :
  forall g p, wf_grid g = true -> p <> EMPTY ->
  length (free_spots g) < depth -> free_spots g <> [] ->
  exists vs refs v,
    pv depth g p = Some vs
    /\ placement_values (fun g1 => best_value (pred depth) g1 (other_player p)) g p
         (free_spots g) = Some refs
    /\ max_list (map snd vs) = Some v
    /\ best_value depth g p = Some v
    /\ score v
    /\ (first_winning p g = None -> map snd vs = refs).
Proof.
  induction depth as [|d IH]; intros g p Hwf Hp Hlen Hne; [lia|].
  destruct (pv_total (S d) g p Hwf Hp Hlen) as (vs & Hpv & Hkeys).
  pose proof (pv_score (S d) g p vs Hpv) as Hscore.
  simpl in Hpv |- *.
  destruct (pv_loop _ p (free_spots g) (g, [])) as [st'|] eqn:E; [|discriminate].
  simpl in Hpv. injection Hpv as <-.
  assert (Hsearch : forall ig, wf_grid ig = true -> length (free_spots ig) < d ->
            free_spots ig <> [] ->
            exists vs v, pv d ig (other_player p) = Some vs
                         /\ max_list (map snd vs) = Some v
                         /\ best_value d ig (other_player p) = Some v /\ score v).
  { intros ig H1 H2 H3.
    destruct (IH ig (other_player p) H1 (other_player_not_empty p) H2 H3)
      as (vs0 & refs0 & v0 & A & _ & B & C & D & _).
    exists vs0, v0. split; [exact A|]. split; [exact B|]. split; [exact C | exact D]. }
  destruct (loop_best g p d Hwf Hp ltac:(lia) Hsearch (free_spots g) [] [] st')
    as (refs & Hrefs & Hagree); auto using free_spots_NoDup.
  simpl in Hagree.
  destruct (placement_values_total (fun g1 => best_value d g1 (other_player p)) g p d
              Hwf Hp ltac:(lia) (search_best_total p d Hsearch) (free_spots g)
              (fun m H => H)) as (refs0 & Hrefs0 & Hsrefs & Hlen0).
  rewrite Hrefs in Hrefs0. injection Hrefs0 as <-.
  destruct (max_list_is_Some (map snd (snd st'))) as (v & Hv).
  { intros Hnil. apply map_eq_nil in Hnil. apply Hne. rewrite <- Hkeys, Hnil. reflexivity. }
  exists (snd st'), refs, v. rewrite Hrefs. simpl.
  split; [reflexivity|]. split; [reflexivity|]. split; [exact Hv|].
  split; [apply (agree_max g p _ _ _ Hagree Hscore Hsrefs Hv)|].
  split; [apply (max_list_score _ _ Hscore Hv)|].
  intros Hnone. destruct Hagree as [Heq|(_ & _ & Hw)]; [exact Heq | contradiction].
Qed.

(** X18.  On a 3x3 board with a free spot, the highest score that
    [position_values] returns for X or O is the value of the position
    under optimal play (a placement winning when [check_win] then reports
    the placer); and when no placement wins at once, every score is the
    true value of its placement.  The scores can be wrong only behind a
    winning placement, where the highest score is 1 anyway. *)
Theorem position_values_best (b : Board) (g : Grid) (p : mark) (s : State) :
  heap s !! b = Some g -> wf_grid g = true -> p <> EMPTY -> free_spots g <> [] ->
  exists vs s' refs v,
    position_values b p s = Some (vs, s')
    /\ placement_values (fun g1 => best_value 9 g1 (other_player p)) g p (free_spots g)
       = Some refs
    /\ max_list (map snd vs) = Some v
    /\ best_value 10 g p = Some v
    /\ (first_winning p g = None -> map snd vs = refs).
Proof.
  intros Hb Hwf Hp Hne.
  destruct (pv_best 10 g p Hwf Hp) as (vs & refs & v & Hpv & Hrefs & Hmax & Hbest & _ & Htrue);
    [pose proof (free_spots_bound g); lia | exact Hne |].
  destruct (position_values_fun_ok 10 b g p s vs Hb Hwf Hpv) as (s' & Hrun & _).
  exists vs, s', refs, v. auto.
Qed.

Lemma position_values_best_witness :
  exists vs s' refs v,
    position_values 0 O (one_board unreverted_grid_o (fun _ => 0)) = Some (vs, s')
    /\ placement_values (fun g1 => best_value 9 g1 (other_player O)) unreverted_grid_o O
         (free_spots unreverted_grid_o) = Some refs
    /\ max_list (map snd vs) = Some v
    /\ best_value 10 unreverted_grid_o O = Some v
    /\ (first_winning O unreverted_grid_o = None -> map snd vs = refs).
Proof.
  apply (position_values_best 0 unreverted_grid_o O (one_board unreverted_grid_o (fun _ => 0)));
    [reflexivity | reflexivity | discriminate | discriminate].
Defined.

Lemma placement_values_In (search : Grid -> option Z) (g : Grid) (p : mark) :
  forall (vs : Values) (refs : list Z),
  placement_values search g p (map fst vs) = Some refs ->
  map snd vs = refs ->
  forall c v, In (c, v) vs -> placement_value search g p c = Some v.
Proof.
  induction vs as [|[c0 v0] vs IH]; intros refs Hrefs Hsnd c v Hin; [destruct Hin|].
  simpl in Hrefs.
  destruct (placement_value search g p c0) as [v1|] eqn:E1; [|discriminate].
  simpl in Hrefs.
  destruct (placement_values search g p (map fst vs)) as [rest|] eqn:E2; [|discriminate].
  simpl in Hrefs. injection Hrefs as <-. simpl in Hsnd. injection Hsnd as -> Hrest.
  destruct Hin as [[= <- <-]|Hin]; [exact E1|].
  apply (IH rest eq_refl Hrest c v Hin).
Qed.

(** X19.  When no placement wins at once, a [MinimaxAgent] that does not
    decline moves to a free spot whose true value is the value of the
    position: it plays optimally.  (When a placement does win at once it
    may pass it up, see [position_values_keeps_winning_mark].) *)
Theorem MinimaxAgent_optimal_without_win (p : mark) (b : Board) (g : Grid) (s : State) :
  heap s !! b = Some g -> wf_grid g = true ->
  declines p (board_histogram g) (check_win g) = false ->
  first_winning p g = None ->
  exists c s' v,
    MinimaxAgent_step p b s = Some (Some (mkMove c p), s')
    /\ In c (free_spots g)
    /\ placement_value (fun g1 => best_value 9 g1 (other_player p)) g p c = Some v
    /\ best_value 10 g p = Some v.
Proof.
  intros Hb Hwf Hd Hnone.
  pose proof (declines_false_inv _ _ _ Hd) as (Hp & _).
  pose proof (not_declined_free _ _ Hwf Hd) as Hne.
  destruct (pv_best 10 g p Hwf Hp) as (vs & refs & v & Hpv & Hrefs & Hmax & Hbest & _ & Htrue);
    [pose proof (free_spots_bound g); lia | exact Hne |].
  destruct (pv_total 10 g p Hwf Hp) as (vs' & Hpv' & Hkeys);
    [pose proof (free_spots_bound g); lia |].
  rewrite Hpv in Hpv'. injection Hpv' as <-.
  destruct (Agent_step_fun_ok (MinimaxAgent p) b g s Hb Hwf) as (mv & s' & Hrun & Hfun & _).
  simpl Agent_step in Hrun. unfold agent_fun in Hfun.
  rewrite Hd, Hpv in Hfun. simpl in Hfun.
  unfold highest_value_positions in Hfun. rewrite Hmax in Hfun. simpl in Hfun.
  unfold random_move, choice_fun in Hfun.
  match type of Hfun with context [?l !! ?i] => destruct (l !! i) as [c|] eqn:Hc end;
    [|discriminate].
  simpl in Hfun. injection Hfun as <- _.
  assert (Hin : In c (map fst (List.filter (fun kv => Z.eqb (snd kv) v) vs)))
    by (apply list_elem_of_In, list_elem_of_lookup; eauto).
  apply in_map_iff in Hin as ([c' v'] & Hfst & Hkv). simpl in Hfst. subst c'.
  apply filter_In in Hkv as [Hkv Hv]. simpl in Hv. apply Z.eqb_eq in Hv. subst v'.
  exists c, s', v. split; [exact Hrun|].
  split; [rewrite <- Hkeys; apply (in_map fst _ _ Hkv)|].
  split; [|exact Hbest].
  rewrite <- Hkeys in Hrefs.
  apply (placement_values_In _ g p vs refs Hrefs (Htrue Hnone) c v Hkv).
Qed.

Lemma MinimaxAgent_optimal_without_win_witness :
  exists c s' v,
    MinimaxAgent_step O 0 (one_board missed_win_grid (fun _ => 0))
    = Some (Some (mkMove c O), s')
    /\ In c (free_spots missed_win_grid)
    /\ placement_value (fun g1 => best_value 9 g1 (other_player O)) missed_win_grid O c
       = Some v
    /\ best_value 10 missed_win_grid O = Some v.
Proof.
  apply (MinimaxAgent_optimal_without_win O 0 missed_win_grid
           (one_board missed_win_grid (fun _ => 0))); reflexivity.
Defined.

(** ** The campaign of [main] *)

Lemma Judgement_eqb_eq (a b : Judgement) : Judgement_eqb a b = true <-> a = b.
Proof. destruct a, b; simpl; split; intros H; try reflexivity; discriminate H. Qed.

Lemma Judgement_eqb_refl (a : Judgement) : Judgement_eqb a a = true.
Proof. now apply Judgement_eqb_eq. Qed.

Lemma Judgement_eqb_neq (a b : Judgement) : a <> b -> Judgement_eqb a b = false.
Proof.
  intros H. destruct (Judgement_eqb a b) eqn:E; [|reflexivity].
  apply Judgement_eqb_eq in E. contradiction.
Qed.

Lemma counts_get_missing (d : Counts) (k : Judgement) (n : nat) :
  ~ In k (map fst d) -> counts_get d k n = n.
Proof.
  induction d as [|[k' v] rest IH]; simpl; intros Hk; [reflexivity|].
  rewrite Judgement_eqb_neq by tauto. apply IH. tauto.
Qed.

Lemma counts_item_get (d : Counts) (k : Judgement) :
  In k (map fst d) -> counts_item d k = Some (counts_get d k 0).
Proof.
  induction d as [|[k' v] rest IH]; simpl; intros Hk; [destruct Hk|].
  destruct (Judgement_eqb k' k) eqn:E; [reflexivity|].
  apply IH. destruct Hk as [->|Hk]; [|exact Hk]. now rewrite Judgement_eqb_refl in E.
Qed.

(** [d[k] = d.get(k, 0) + 1] adds one to the total and keeps a tally. *)
Lemma counts_set_tally (d : Counts) (k : Judgement) (n : nat) :
  tally n d -> is_penalty k = false ->
  tally (S n) (counts_set d k (counts_get d k 0 + 1)).
Proof.
  revert n. induction d as [|[k' v] rest IH]; intros n (Hnd & Hsum & Hall) Hk.
  - simpl in *. subst n. unfold tally. simpl.
    split; [constructor; [intros [] | constructor]|].
    split; [reflexivity|].
    constructor; [split; [exact Hk | simpl; lia] | constructor].
  - simpl in Hnd, Hsum. inversion Hnd as [|? ? Hnotin Hnd']; subst.
    inversion Hall as [|? ? [Hp Hv] Hall']; subst. simpl in Hp, Hv. simpl.
    destruct (Judgement_eqb k' k) eqn:E.
    + split; [simpl; now constructor|]. split; [simpl; lia|].
      constructor; [simpl; split; [exact Hp | lia] | exact Hall'].
    + destruct (IH (list_sum (map snd rest)) (conj Hnd' (conj eq_refl Hall')) Hk)
        as (Hnd1 & Hsum1 & Hall1).
      split.
      { simpl. constructor; [|exact Hnd1].
        intros Hin. apply in_map_iff in Hin as ([k1 v1] & Hk1 & Hin1). simpl in Hk1. subst k1.
        assert (Hkeys : forall d0 v0, In (k', v1) (counts_set d0 k v0) ->
                          In k' (map fst d0) \/ k' = k).
        { induction d0 as [|[k2 v2] d0 IHd]; simpl; intros v0 H.
          - destruct H as [[= <- _]|[]]. now right.
          - destruct (Judgement_eqb k2 k); destruct H as [[= <- _]|H]; auto.
            + left. right. apply (in_map fst) in H. exact H.
            + destruct (IHd _ H); auto. }
        destruct (Hkeys _ _ Hin1) as [H|H]; [contradiction|].
        subst k'. now rewrite Judgement_eqb_refl in E. }
      split; [simpl; lia|].
      constructor; [simpl; auto | exact Hall1].
Qed.

Lemma campaign_run (trials : nat) :
  forall (d : Counts) (n : nat) (s : State),
  tally n d ->
  exists d' s', campaign trials d s = Some (d', s') /\ tally (n + trials) d'.
Proof.
  induction trials as [|t IH]; intros d n s Hd; cbn [campaign].
  - exists d, s. split; [reflexivity|]. now rewrite Nat.add_0_r.
  - destruct (fair_game_fun (OneStepAheadAgent X) (RandomAgent O) (rng s) eq_refl eq_refl
                eq_refl eq_refl) as (j & Hfun & _ & Hj).
    pose proof (game_fun_ok 10 (OneStepAheadAgent X) (RandomAgent O) RegularReferee s) as Hrun.
    rewrite Hfun in Hrun. destruct Hrun as (s1 & Hrun).
    unfold game in Hrun. rewrite bind_run in Hrun. rewrite bind_run.
    destruct (Simulator_init _ _ _ s) as [[sim s0]|]; [|discriminate].
    rewrite bind_run, Hrun.
    destruct (IH _ (S n) s1 (counts_set_tally d j n Hd Hj)) as (d' & s' & Hc & Ht).
    exists d', s'. split; [exact Hc|]. now rewrite Nat.add_succ_r.
Qed.

Lemma report_run (d : Counts) (ks : list Judgement) :
  (forall k, In k ks -> In k (map fst d)) ->
  forall lines s,
  for_fold ks
    (fun lines key =>
       match counts_item d key with
       | Some n => mret (lines ++ [(key, n)])
       | None => raise
       end) lines s
  = Some (lines ++ map (fun k => (k, counts_get d k 0)) ks, s).
Proof.
  induction ks as [|k rest IH]; intros Hin lines s; simpl.
  - now rewrite app_nil_r.
  - rewrite bind_run, (counts_item_get d k (Hin k (or_introl eq_refl))), ret_run.
    rewrite IH by (intros k' Hk'; apply Hin; now right).
    now rewrite <- app_assoc.
Qed.

Lemma insert_by_value_In (k k0 : Judgement) (ks : list Judgement) :
  In k (insert_by_value k0 ks) <-> k = k0 \/ In k ks.
Proof.
  induction ks as [|k' rest IH]; simpl; [intuition|].
  destruct (Nat.ltb _ _); simpl; [intuition | rewrite IH; intuition].
Qed.

Lemma sorted_by_value_In (ks : list Judgement) (k : Judgement) :
  In k (sorted_by_value ks) <-> In k ks.
Proof.
  unfold sorted_by_value.
  assert (H : forall acc, In k (fold_left (fun acc k => insert_by_value k acc) ks acc)
                           <-> In k ks \/ In k acc).
  { induction ks as [|k0 rest IH]; intros acc; simpl; [intuition|].
    rewrite IH, insert_by_value_In. intuition. }
  rewrite H. simpl. intuition.
Qed.

Lemma insert_by_value_sum (f : Judgement -> nat) (k : Judgement) (ks : list Judgement) :
  list_sum (map f (insert_by_value k ks)) = f k + list_sum (map f ks).
Proof.
  induction ks as [|k' rest IH]; simpl; [reflexivity|].
  destruct (Nat.ltb _ _); simpl; [reflexivity | rewrite IH; lia].
Qed.

Lemma sorted_by_value_sum (f : Judgement -> nat) (ks : list Judgement) :
  list_sum (map f (sorted_by_value ks)) = list_sum (map f ks).
Proof.
  unfold sorted_by_value.
  assert (H : forall acc,
            list_sum (map f (fold_left (fun acc k => insert_by_value k acc) ks acc))
            = list_sum (map f ks) + list_sum (map f acc)).
  { induction ks as [|k0 rest IH]; intros acc; simpl; [reflexivity|].
    rewrite IH, insert_by_value_sum. lia. }
  rewrite H. simpl. lia.
Qed.

Lemma Judgement_value_inj (a b : Judgement) : Judgement_value a = Judgement_value b -> a = b.
Proof. destruct a, b; simpl; intros H; try reflexivity; discriminate H. Qed.

Lemma insert_by_value_sorted (k : Judgement) (ks : list Judgement) :
  ~ In k ks ->
  StronglySorted lt (map Judgement_value ks) ->
  StronglySorted lt (map Judgement_value (insert_by_value k ks)).
Proof.
  induction ks as [|k' rest IH]; simpl; intros Hk Hs.
  - repeat constructor.
  - inversion Hs as [|? ? Hrest Hall]; subst.
    destruct (Nat.ltb_spec (Judgement_value k) (Judgement_value k')) as [Hlt|Hge]; simpl.
    + constructor; [exact Hs|]. constructor; [exact Hlt|].
      rewrite List.Forall_forall in Hall |- *. intros x Hx. specialize (Hall x Hx). lia.
    + constructor; [apply IH; [tauto | exact Hrest]|].
      rewrite List.Forall_forall in Hall |- *. intros x Hx.
      apply in_map_iff in Hx as (k1 & <- & Hk1).
      apply insert_by_value_In in Hk1 as [->|Hk1].
      * assert (Judgement_value k <> Judgement_value k')
          by (intros E; apply Judgement_value_inj in E; subst; tauto). lia.
      * apply Hall, in_map, Hk1.
Qed.

Lemma sorted_by_value_sorted (ks : list Judgement) :
  List.NoDup ks -> StronglySorted lt (map Judgement_value (sorted_by_value ks)).
Proof.
  unfold sorted_by_value.
  assert (H : forall acc, List.NoDup ks -> (forall k, In k ks -> ~ In k acc) ->
            StronglySorted lt (map Judgement_value acc) ->
            StronglySorted lt
              (map Judgement_value (fold_left (fun acc k => insert_by_value k acc) ks acc))).
  { induction ks as [|k0 rest IH]; intros acc Hnd Hdisj Hs; simpl; [exact Hs|].
    inversion Hnd as [|? ? Hnotin Hnd']; subst.
    apply IH; [exact Hnd' | | apply insert_by_value_sorted; [apply Hdisj; now left | exact Hs]].
    intros k Hk Hin. apply insert_by_value_In in Hin as [->|Hin]; [contradiction|].
    apply (Hdisj k); [now right | exact Hin]. }
  intros Hnd. apply H; [exact Hnd | intros k _ [] | constructor].
Qed.

Lemma counts_get_sum (d : Counts) :
  List.NoDup (map fst d) ->
  list_sum (map (fun k => counts_get d k 0) (map fst d)) = list_sum (map snd d).
Proof.
  induction d as [|[k v] rest IH]; simpl; intros Hnd; [reflexivity|].
  inversion Hnd as [|? ? Hnotin Hnd']; subst.
  rewrite Judgement_eqb_refl. f_equal. rewrite <- (IH Hnd').
  f_equal. apply map_ext_in. intros k' Hk'.
  rewrite Judgement_eqb_neq; [reflexivity|]. intros ->. contradiction.
Qed.

Lemma counts_get_In (d : Counts) (k : Judgement) :
  In k (map fst d) -> In (k, counts_get d k 0) d.
Proof.
  induction d as [|[k' v] rest IH]; simpl; intros Hk; [destruct Hk|].
  destruct (Judgement_eqb k' k) eqn:E.
  - apply Judgement_eqb_eq in E. subst. now left.
  - right. apply IH. destruct Hk as [->|Hk]; [|exact Hk]. now rewrite Judgement_eqb_refl in E.
Qed.

(** X20.  [main] returns from any store and for any draws.  The counts
    it prints add up to the ten games played, its lines are in the order
    of the values of [Judgement] without repetition, every count printed
    is at least one, and no line is a penalty. *)
Theorem main_report (s : State) :
  exists report s',
    main s = Some (report, s')
    /\ list_sum (map snd report) = 10
    /\ StronglySorted lt (map Judgement_value (map fst report))
    /\ Forall (fun kn => is_penalty (fst kn) = false /\ 1 <= snd kn) report.
Proof.
  destruct (campaign_run 10 [] 0 s) as (d & s' & Hrun & Hnd & Hsum & Hall).
  { split; [constructor|]. split; [reflexivity | constructor]. }
  unfold main. rewrite bind_run, Hrun.
  rewrite report_run by (intros k Hk; apply (proj1 (sorted_by_value_In _ _) Hk)).
  eexists _, _. split; [reflexivity|]. simpl. rewrite !map_map. simpl.
  split; [|split].
  - rewrite <- (map_map (fun k => k) (fun k => counts_get d k 0)), map_id.
    rewrite sorted_by_value_sum, counts_get_sum by exact Hnd. exact Hsum.
  - rewrite <- (map_map (fun k => k) Judgement_value), map_id.
    apply sorted_by_value_sorted, Hnd.
  - rewrite List.Forall_forall in Hall |- *. intros [k n] Hin.
    apply in_map_iff in Hin as (k' & [= <- <-] & Hk').
    apply (proj1 (sorted_by_value_In _ _)) in Hk'. apply (Hall _ (counts_get_In d k' Hk')).
Qed.

(** ** Rendering *)

Lemma cell_char_inj (a b : mark) : cell_char a = cell_char b -> a = b.
Proof. destruct a, b; simpl; intros H; try reflexivity; discriminate H. Qed.

(** X21.  [pretty_print] writes twelve characters for a 3x3 board, three
    cells and a newline per row, and two 3x3 boards that print alike have
    the same contents. *)
Theorem pretty_print_faithful (g1 g2 : Grid) :
  wf_grid g1 = true -> wf_grid g2 = true ->
  length (pretty_print g1) = 12
  /\ (pretty_print g1 = pretty_print g2 -> g1 = g2).
Proof.
  intros H1 H2. grid_cells g1 H1. grid_cells g2 H2.
  split; [reflexivity|].
  unfold pretty_print. simpl. intros H.
  injection H as Ha Hb Hc Hd He Hf Hh Hi Hj.
  repeat match goal with
         | E : cell_char _ = cell_char _ |- _ => apply cell_char_inj in E; subst
         end.
  reflexivity.
Qed.

Lemma pretty_print_faithful_witness :
  length (pretty_print missed_win_grid) = 12
  /\ (pretty_print missed_win_grid = pretty_print missed_win_grid ->
      missed_win_grid = missed_win_grid).
Proof. apply (pretty_print_faithful missed_win_grid missed_win_grid); reflexivity. Defined.
